(** * asr-project: the transcription route and the JSON export

    A shallow embedding of [src/app/api/transcribe/route.ts] (the retry
    helper [retryWithBackoff] and the [POST] handler) and of
    [handleDownload] in [src/app/page.tsx], with the properties that the
    specification states about them.

    Conventions.
    - A JavaScript string is the list of its UTF-16 code units ([jsstring]);
      [str] embeds an ASCII literal.
    - JavaScript numbers that the code uses as counters and millisecond
      delays are exact integers ([Z]); the code's doubles agree with them
      below 2^53.
    - Effects are explicit: the file system is a [World] that is threaded
      through the handler together with a trace of what the handler did
      (calls of the model service, waits, console lines, file-system
      calls); the behaviour of the platform (form decoding, uuid,
      file-system failures, the replies of the model service) is an [Env]
      that the handler reads.
    - The built-ins that the code calls are modelled after ECMAScript: the
      regular expression of the route by a backtracking matcher,
      [JSON.parse] by a parser of the JSON grammar, [JSON.stringify] by
      [SerializeJSONProperty]. *)

From Equations Require Import Equations.
From Stdlib Require Import ZArith List String Ascii Bool Lia DecimalString.
From stdpp Require Import base option list gmap.
Import ListNotations.

Set Default Proof Using "Type".

(** ** JavaScript strings *)

Abbreviation jsstring := (list N).

Definition ch (c : ascii) : N := N_of_ascii c.
Arguments ch c%_char : simpl never.

Definition str (s : string) : jsstring :=
  map N_of_ascii (list_ascii_of_string s).
Arguments str s%_string : simpl never.

(** [dq] embeds a literal in which an apostrophe stands for the double
    quote, for writing JSON texts. *)
Definition dq (s : string) : jsstring :=
  map (fun c => if (c =? 39)%N then 34%N else c) (str s).
Arguments dq s%_string : simpl never.

(** [String.prototype.startsWith] and [String.prototype.includes]. *)
Fixpoint startsWith (s p : jsstring) : bool :=
  match p, s with
  | [], _ => true
  | _ :: _, [] => false
  | c :: p', d :: s' => N.eqb c d && startsWith s' p'
  end.

Fixpoint includes (s p : jsstring) : bool :=
  startsWith s p ||
  match s with
  | [] => false
  | _ :: s' => includes s' p
  end.

(** ** JSON values

    What [JSON.parse] produces.  An object is the list of its own
    properties in creation order, which is the order in which JavaScript
    enumerates them for all keys but array indices (those come first, in
    ascending order; no statement below depends on the order of keys).
    A number keeps its literal: its numeric value is not modelled. *)

#[local] Set Warnings "-register-all".

Inductive json : Type :=
| JNull
| JBool (b : bool)
| JNum (literal : jsstring)
| JStr (s : jsstring)
| JArr (items : list json)
| JObj (props : list (jsstring * json)).

(** [interface TimelineEntry] (route.ts and page.tsx, lines 11-17), and
    the object that holds an entry, with its properties in the order of
    the declaration.  The interface is erased at run time: what the
    handler decodes and returns are [json] values. *)
Record TimelineEntry : Type := {
  filename : jsstring;
  tc_in : jsstring;
  tc_out : jsstring;
  speaker : jsstring;
  dialogue : jsstring
}.

Definition entryObject (e : TimelineEntry) : json :=
  JObj [(str "filename", JStr (filename e));
        (str "tc_in", JStr (tc_in e));
        (str "tc_out", JStr (tc_out e));
        (str "speaker", JStr (speaker e));
        (str "dialogue", JStr (dialogue e))].

(** ** Thrown values and completions *)

(** A thrown value is an [Error] instance (whose [message] may be
    undefined) or any other value. *)
Inductive thrown : Type :=
| ErrorObject (message : option jsstring)
| NonError (v : json).

Inductive outcome (A : Type) : Type :=
| Return (a : A)
| Throw (e : thrown).
Arguments Return {A} a.
Arguments Throw {A} e.

(** The test of [retryWithBackoff] on a caught value, negated:
    [error instanceof Error && error.message?.includes('429')]. *)
Definition isRateLimit (e : thrown) : bool :=
  match e with
  | ErrorObject (Some m) => includes m (str "429")
  | ErrorObject None => false
  | NonError _ => false
  end.

(** ** Observable events *)

Inductive LogEntry : Type :=
| LogRateLimited (delay : Z)          (* `Rate limited. Retrying in ${delay}ms...` *)
| LogParseFailure (e : thrown)        (* 'Error parsing Gemini response:' *)
| LogUnlinkFailure (e : thrown)       (* 'Error deleting temporary file:' *)
| LogProcessingFailure (e : thrown).  (* 'Error processing video:' *)

Inductive Event : Type :=
| EvInvoke                    (* [fn()] is called *)
| EvWait (ms : Z)             (* [await wait(ms)] *)
| EvConsole (l : LogEntry)
| EvMkdir (path : jsstring)
| EvWriteFile (path : jsstring)
| EvUnlink (path : jsstring). (* [unlink(path)] is called *)

Definition invocations (tr : list Event) : nat :=
  length (List.filter (fun e => match e with EvInvoke => true | _ => false end) tr).

Definition waits (tr : list Event) : list Z :=
  omap (fun e => match e with EvWait ms => Some ms | _ => None end) tr.

(** ** [retryWithBackoff] (route.ts, lines 23-42) *)

Section Retry.
Context {S T : Type}.

(** The operation: an effectful thunk over some state [S]. *)
Variable fn : S -> outcome T * S.

Definition giveUp (maxRetries retries : Z) (e : thrown) : bool :=
  (retries >=? maxRetries)%Z || negb (isRateLimit e).

(** Case analysis that keeps the equation, for the termination proof. *)
Definition inspect {A : Type} (x : A) : { y : A | x = y } := exist _ x eq_refl.

(** The body of [while (true)], with [retries] the loop variable.  The
    trace [tr] records the calls of [fn], the console lines and the
    waits, in order. *)
Equations? retryLoop (maxRetries initialDelay retries : Z)
    (s : S) (tr : list Event) : outcome T * S * list Event
    by wf (Z.to_nat (maxRetries - retries)) lt :=
  retryLoop maxRetries initialDelay retries s tr with fn s => {
    | (Return v, s') := (Return v, s', tr ++ [EvInvoke]);
    | (Throw e, s') with inspect (giveUp maxRetries retries e) => {
        | exist _ true _ := (Throw e, s', tr ++ [EvInvoke]);
        | exist _ false Hgo :=
            let delay := (initialDelay * 2 ^ retries)%Z in
            retryLoop maxRetries initialDelay (retries + 1) s'
              (tr ++ [EvInvoke; EvConsole (LogRateLimited delay); EvWait delay]) } }.
Proof.
  unfold giveUp in Hgo. apply orb_false_iff in Hgo as [Hgo _]. lia.
Qed.

Definition retryWithBackoff (maxRetries initialDelay : Z) (s : S)
  : outcome T * S * list Event :=
  retryLoop maxRetries initialDelay 0 s [].

End Retry.

(** ** Regular expressions, as far as the route uses them

    The one pattern of the route, [/\[\s*\{[\s\S]*\}\s*\]/], is a sequence
    of single characters and greedy stars of character classes.  The
    matcher below is the backtracking matcher of the language: a star
    first tries to take one more character and falls back to the rest of
    the pattern when that fails. *)

Inductive Atom : Type :=
| One (p : N -> bool)    (* one character of the class *)
| Many (p : N -> bool).  (* [p*], greedy *)

(** [matchHere r s]: the length of the match of [r] at the start of [s]. *)
Fixpoint matchHere (r : list Atom) : jsstring -> option nat :=
  match r with
  | [] => fun _ => Some 0%nat
  | One p :: r' => fun s =>
      match s with
      | c :: s' => if p c then option_map Datatypes.S (matchHere r' s') else None
      | [] => None
      end
  | Many p :: r' =>
      fix many (s : jsstring) : option nat :=
        match s with
        | c :: s' =>
            if p c then
              match many s' with
              | Some n => Some (Datatypes.S n)
              | None => matchHere r' s
              end
            else matchHere r' s
        | [] => matchHere r' s
        end
  end.

(** [regexExec r s]: index and length of the first match, scanning the
    start positions from left to right. *)
Fixpoint regexExec (r : list Atom) (s : jsstring) : option (nat * nat) :=
  match matchHere r s with
  | Some n => Some (0%nat, n)
  | None =>
      match s with
      | [] => None
      | _ :: s' =>
          match regexExec r s' with
          | Some (i, n) => Some (Datatypes.S i, n)
          | None => None
          end
      end
  end.

(** [s.match(r)] for a pattern without the [g] flag, then [[0]]: the
    matched substring, or [None] for [null]. *)
Definition String_match (r : list Atom) (s : jsstring) : option jsstring :=
  match regexExec r s with
  | Some (i, n) => Some (take n (drop i s))
  | None => None
  end.

(** [\s]: the WhiteSpace and LineTerminator code units. *)
Definition isWhiteSpace (c : N) : bool :=
  ((9 <=? c) && (c <=? 13) || (c =? 32) || (c =? 160) || (c =? 0x1680)
   || (0x2000 <=? c) && (c <=? 0x200A) || (c =? 0x2028) || (c =? 0x2029)
   || (c =? 0x202F) || (c =? 0x205F) || (c =? 0x3000) || (c =? 0xFEFF))%N.

(** [[\s\S]]. *)
Definition anyChar (c : N) : bool := isWhiteSpace c || negb (isWhiteSpace c).

Definition isChar (a : ascii) (c : N) : bool := (c =? ch a)%N.
Arguments isChar a%_char c.

(** [/\[\s*\{[\s\S]*\}\s*\]/] (route.ts, line 136). *)
Definition jsonArrayPattern : list Atom :=
  [One (isChar "["); Many isWhiteSpace; One (isChar "{"); Many anyChar;
   One (isChar "}"); Many isWhiteSpace; One (isChar "]")].

(** ** [JSON.parse]

    The JSON grammar of ECMA-404, which is what [JSON.parse] accepts.
    [PFuel] is kept apart from [PSyntaxError]: [parseValue_fuel] below
    shows that the fuel [JSON_parse] gives is never used up. *)

Inductive presult (A : Type) : Type :=
| POk (a : A) (rest : jsstring)
| PSyntaxError
| PFuel.
Arguments POk {A} a rest.
Arguments PSyntaxError {A}.
Arguments PFuel {A}.

(** JSON whitespace: space, tab, line feed, carriage return. *)
Definition isJsonWs (c : N) : bool :=
  ((c =? 32) || (c =? 9) || (c =? 10) || (c =? 13))%N.

Fixpoint skipWs (s : jsstring) : jsstring :=
  match s with
  | c :: s' => if isJsonWs c then skipWs s' else s
  | [] => []
  end.

Definition isDigit (c : N) : bool := ((48 <=? c) && (c <=? 57))%N.

Definition hexValue (c : N) : option N :=
  (if isDigit c then Some (c - 48)
   else if (97 <=? c) && (c <=? 102) then Some (c - 87)
   else if (65 <=? c) && (c <=? 70) then Some (c - 55)
   else None)%N.

Definition hex4 (a b c d : N) : option N :=
  match hexValue a, hexValue b, hexValue c, hexValue d with
  | Some x, Some y, Some z, Some w => Some (x * 4096 + y * 256 + z * 16 + w)%N
  | _, _, _, _ => None
  end.

(** The character after a backslash, other than [u]:
    quote, backslash, slash, b, f, n, r, t. *)
Definition simpleEscape (c : N) : option N :=
  (if c =? 34 then Some 34
   else if c =? 92 then Some 92
   else if c =? 47 then Some 47
   else if c =? 98 then Some 8
   else if c =? 102 then Some 12
   else if c =? 110 then Some 10
   else if c =? 114 then Some 13
   else if c =? 116 then Some 9
   else None)%N.

Definition consChar (c : N) (r : presult jsstring) : presult jsstring :=
  match r with
  | POk cs rest => POk (c :: cs) rest
  | PSyntaxError => PSyntaxError
  | PFuel => PFuel
  end.

(** The characters of a string literal, after the opening quote and up to
    the closing one. *)
Fixpoint parseChars (s : jsstring) : presult jsstring :=
  match s with
  | [] => PSyntaxError
  | c :: s1 =>
      if (c =? 34)%N then POk [] s1
      else if (c =? 92)%N then
        match s1 with
        | [] => PSyntaxError
        | e :: s2 =>
            if (e =? 117)%N then
              match s2 with
              | h1 :: h2 :: h3 :: h4 :: s3 =>
                  match hex4 h1 h2 h3 h4 with
                  | Some u => consChar u (parseChars s3)
                  | None => PSyntaxError
                  end
              | _ => PSyntaxError
              end
            else
              match simpleEscape e with
              | Some d => consChar d (parseChars s2)
              | None => PSyntaxError
              end
        end
      else if (c <? 32)%N then PSyntaxError
      else consChar c (parseChars s1)
  end.

Fixpoint spanDigits (s : jsstring) : jsstring * jsstring :=
  match s with
  | c :: s' =>
      if isDigit c then let '(ds, rest) := spanDigits s' in (c :: ds, rest)
      else ([], s)
  | [] => ([], [])
  end.

(** One or more digits. *)
Definition parseDigits1 (s : jsstring) : option (jsstring * jsstring) :=
  match spanDigits s with
  | ([], _) => None
  | (ds, rest) => Some (ds, rest)
  end.

(** An optional minus sign, then 0 or a digit string without leading 0. *)
Definition parseInt (s : jsstring) : option (jsstring * jsstring) :=
  let '(sign, s1) :=
    match s with
    | c :: s' => if (c =? 45)%N then ([c], s') else ([], s)
    | [] => ([], s)
    end in
  match s1 with
  | c :: s2 =>
      if (c =? 48)%N then Some (sign ++ [c], s2)
      else if isDigit c then
        let '(ds, rest) := spanDigits s2 in Some (sign ++ c :: ds, rest)
      else None
  | [] => None
  end.

(** An optional fraction: a dot and one or more digits; [None] when a
    dot is not followed by a digit. *)
Definition parseFrac (s : jsstring) : option (jsstring * jsstring) :=
  match s with
  | c :: s1 =>
      if (c =? 46)%N then
        match parseDigits1 s1 with
        | Some (ds, rest) => Some (c :: ds, rest)
        | None => None
        end
      else Some ([], s)
  | [] => Some ([], s)
  end.

(** An optional exponent: e or E, an optional sign, one or more digits. *)
Definition parseExp (s : jsstring) : option (jsstring * jsstring) :=
  match s with
  | c :: s1 =>
      if ((c =? 101) || (c =? 69))%N then
        let '(sign, s2) :=
          match s1 with
          | d :: s' => if ((d =? 43) || (d =? 45))%N then ([d], s') else ([], s1)
          | [] => ([], s1)
          end in
        match parseDigits1 s2 with
        | Some (ds, rest) => Some (c :: sign ++ ds, rest)
        | None => None
        end
      else Some ([], s)
  | [] => Some ([], s)
  end.

Definition parseNumber (s : jsstring) : presult json :=
  match parseInt s with
  | Some (i, s1) =>
      match parseFrac s1 with
      | Some (f, s2) =>
          match parseExp s2 with
          | Some (e, s3) => POk (JNum (i ++ f ++ e)) s3
          | None => PSyntaxError
          end
      | None => PSyntaxError
      end
  | None => PSyntaxError
  end.

Definition parseLiteral (lit : jsstring) (v : json) (s : jsstring) : presult json :=
  if startsWith s lit then POk v (drop (length lit) s) else PSyntaxError.

(** [CreateDataProperty]: a repeated key keeps its place and takes the
    new value, a new key goes last. *)
Fixpoint setProp (k : jsstring) (v : json) (props : list (jsstring * json))
  : list (jsstring * json) :=
  match props with
  | [] => [(k, v)]
  | (k', v') :: ps =>
      if decide (k' = k) then (k', v) :: ps else (k', v') :: setProp k v ps
  end.

Fixpoint getProp (k : jsstring) (props : list (jsstring * json)) : option json :=
  match props with
  | [] => None
  | (k', v') :: ps => if decide (k' = k) then Some v' else getProp k ps
  end.

Fixpoint parseValue (fuel : nat) (s : jsstring) {struct fuel} : presult json :=
  match fuel with
  | O => PFuel
  | Datatypes.S fuel' =>
      match skipWs s with
      | [] => PSyntaxError
      | c :: s1 =>
          if (c =? 123)%N then            (* { *)
            match skipWs s1 with
            | d :: s2 =>
                if (d =? 125)%N then POk (JObj []) s2
                else parseMembers fuel' (d :: s2) []
            | [] => PSyntaxError
            end
          else if (c =? 91)%N then        (* [ *)
            match skipWs s1 with
            | d :: s2 =>
                if (d =? 93)%N then POk (JArr []) s2
                else parseElements fuel' (d :: s2) []
            | [] => PSyntaxError
            end
          else if (c =? 34)%N then        (* quote *)
            match parseChars s1 with
            | POk cs rest => POk (JStr cs) rest
            | PSyntaxError => PSyntaxError
            | PFuel => PFuel
            end
          else if (c =? 116)%N then parseLiteral (str "true") (JBool true) (c :: s1)
          else if (c =? 102)%N then parseLiteral (str "false") (JBool false) (c :: s1)
          else if (c =? 110)%N then parseLiteral (str "null") JNull (c :: s1)
          else parseNumber (c :: s1)
      end
  end

(** The members of an object, from the first key on; [acc] holds the
    properties created so far. *)
with parseMembers (fuel : nat) (s : jsstring) (acc : list (jsstring * json))
    {struct fuel} : presult json :=
  match fuel with
  | O => PFuel
  | Datatypes.S fuel' =>
      match skipWs s with
      | c :: s1 =>
          if (c =? 34)%N then
            match parseChars s1 with
            | POk k s2 =>
                match skipWs s2 with
                | d :: s3 =>
                    if (d =? 58)%N then     (* : *)
                      match parseValue fuel' s3 with
                      | POk v s4 =>
                          match skipWs s4 with
                          | e :: s5 =>
                              if (e =? 44)%N then parseMembers fuel' s5 (setProp k v acc)
                              else if (e =? 125)%N then POk (JObj (setProp k v acc)) s5
                              else PSyntaxError
                          | [] => PSyntaxError
                          end
                      | PSyntaxError => PSyntaxError
                      | PFuel => PFuel
                      end
                    else PSyntaxError
                | [] => PSyntaxError
                end
            | PSyntaxError => PSyntaxError
            | PFuel => PFuel
            end
          else PSyntaxError
      | [] => PSyntaxError
      end
  end

(** The elements of an array, from the first one on. *)
with parseElements (fuel : nat) (s : jsstring) (acc : list json)
    {struct fuel} : presult json :=
  match fuel with
  | O => PFuel
  | Datatypes.S fuel' =>
      match parseValue fuel' s with
      | POk v s1 =>
          match skipWs s1 with
          | e :: s2 =>
              if (e =? 44)%N then parseElements fuel' s2 (acc ++ [v])
              else if (e =? 93)%N then POk (JArr (acc ++ [v])) s2
              else PSyntaxError
          | [] => PSyntaxError
          end
      | PSyntaxError => PSyntaxError
      | PFuel => PFuel
      end
  end.

(** The [SyntaxError] of [JSON.parse]; its message is the engine's and
    nothing depends on it. *)
Definition SyntaxError : thrown :=
  ErrorObject (Some (str "Unexpected token in JSON")).

Definition JSON_parse (text : jsstring) : outcome json :=
  match parseValue (2 * length text + 1) text with
  | POk v rest =>
      match skipWs rest with
      | [] => Return v
      | _ :: _ => Throw SyntaxError
      end
  | PSyntaxError => Throw SyntaxError
  | PFuel => Throw SyntaxError
  end.

(** ** The request and the platform *)

Record File : Type := {
  file_name : jsstring;     (* [file.name] *)
  file_type : jsstring;     (* [file.type] *)
  file_bytes : list N       (* what [file.arrayBuffer()] resolves to *)
}.

(** A form field is a file or a string. *)
Inductive FormDataEntryValue : Type :=
| FileEntry (f : File)
| TextEntry (s : jsstring).

(** [formData.get(name)]: the first value of that name, or [null]. *)
Fixpoint FormData_get (name : jsstring) (fd : list (jsstring * FormDataEntryValue))
  : option FormDataEntryValue :=
  match fd with
  | [] => None
  | (k, v) :: fd' => if decide (k = name) then Some v else FormData_get name fd'
  end.

(** A request, as far as the handler reads it: what [request.formData()]
    settles to. *)
Record Request : Type := {
  request_formData : outcome (list (jsstring * FormDataEntryValue))
}.

(** The result of [model.generateContent]: [result.response.text()]
    returns the reply or throws. *)
Record GenerateContentResult : Type := {
  response_text : outcome jsstring
}.

(** What the platform does during one request. *)
Record Env : Type := {
  uuidv4 : jsstring;
  cwd : jsstring;                                         (* [process.cwd()] *)
  mkdir_error : option thrown;                            (* [Some e]: [mkdir] rejects with [e] *)
  writeFile_error : option thrown;
  unlink_error : option thrown;
  generateContent : nat -> outcome GenerateContentResult  (* the k-th call, from 0 *)
}.

(** The scratch area and the count of calls made to the model service. *)
Record World : Type := {
  files : gmap jsstring (list N);
  dirs : gset jsstring;
  calls : nat
}.

Record Response : Type := {
  status : Z;
  body : json
}.

(** [NextResponse.json(data, { status })]. *)
Definition NextResponse_json (data : json) (st : Z) : Response :=
  {| status := st; body := data |}.

(** ** The handler's control flow

    A step of the handler completes normally, throws, or leaves the
    function with [return response]. *)

Inductive Completion (A : Type) : Type :=
| Normal (a : A)
| Abrupt (e : thrown)
| Respond (r : Response).
Arguments Normal {A} a.
Arguments Abrupt {A} e.
Arguments Respond {A} r.

Definition M (A : Type) : Type :=
  World -> list Event -> Completion A * World * list Event.

Definition ret {A} (a : A) : M A := fun w tr => (Normal a, w, tr).

Definition bind {A B} (m : M A) (k : A -> M B) : M B :=
  fun w tr =>
    match m w tr with
    | (Normal a, w', tr') => k a w' tr'
    | (Abrupt e, w', tr') => (Abrupt e, w', tr')
    | (Respond r, w', tr') => (Respond r, w', tr')
    end.

#[global] Instance M_ret : MRet M := @ret.
#[global] Instance M_bind : MBind M := fun A B k m => bind m k.

Definition throw {A} (e : thrown) : M A := fun w tr => (Abrupt e, w, tr).
Definition respond {A} (r : Response) : M A := fun w tr => (Respond r, w, tr).
Definition emit (e : Event) : M unit := fun w tr => (Normal tt, w, tr ++ [e]).

(** [await p] for a settled promise. *)
Definition await {A} (p : outcome A) : M A :=
  match p with
  | Return a => ret a
  | Throw e => throw e
  end.

(** [try { m } catch (error) { h error }]: only a throw is caught. *)
Definition tryCatch {A} (m : M A) (h : thrown -> M A) : M A :=
  fun w tr =>
    match m w tr with
    | (Abrupt e, w', tr') => h e w' tr'
    | r => r
    end.

(** *** File system *)

(** [path.join] of two segments that need no normalisation. *)
Definition join (a b : jsstring) : jsstring := a ++ str "/" ++ b.

Definition existsSync (path : jsstring) : M bool :=
  fun w tr =>
    (Normal (bool_decide (path ∈ dirs w) || bool_decide (is_Some (files w !! path))), w, tr).

Definition mkdir (env : Env) (path : jsstring) : M unit :=
  fun w tr =>
    match mkdir_error env with
    | Some e => (Abrupt e, w, tr ++ [EvMkdir path])
    | None =>
        (Normal tt,
         {| files := files w; dirs := {[ path ]} ∪ dirs w; calls := calls w |},
         tr ++ [EvMkdir path])
    end.

Definition writeFile (env : Env) (path : jsstring) (data : list N) : M unit :=
  fun w tr =>
    match writeFile_error env with
    | Some e => (Abrupt e, w, tr ++ [EvWriteFile path])
    | None =>
        (Normal tt,
         {| files := <[ path := data ]> (files w); dirs := dirs w; calls := calls w |},
         tr ++ [EvWriteFile path])
    end.

Definition ENOENT : thrown :=
  ErrorObject (Some (str "ENOENT: no such file or directory, unlink")).

Definition unlink (env : Env) (path : jsstring) : M unit :=
  fun w tr =>
    match files w !! path with
    | None => (Abrupt ENOENT, w, tr ++ [EvUnlink path])
    | Some _ =>
        match unlink_error env with
        | Some e => (Abrupt e, w, tr ++ [EvUnlink path])
        | None =>
            (Normal tt,
             {| files := delete path (files w); dirs := dirs w; calls := calls w |},
             tr ++ [EvUnlink path])
        end
    end.

(** *** The model service *)

(** The thunk that the handler hands to [retryWithBackoff]: one call of
    [model.generateContent]. *)
Definition callModel (env : Env) (w : World) : outcome GenerateContentResult * World :=
  (generateContent env (calls w),
   {| files := files w; dirs := dirs w; calls := Datatypes.S (calls w) |}).

(** [await retryWithBackoff(fn)] with the default [maxRetries = 3] and
    [initialDelay = 1000]. *)
Definition awaitRetry {T} (fn : World -> outcome T * World) : M T :=
  fun w tr =>
    match retryWithBackoff fn 3 1000 w with
    | (Return v, w', tr') => (Normal v, w', tr ++ tr')
    | (Throw e, w', tr') => (Abrupt e, w', tr ++ tr')
    end.

(** *** Decoding and overlay *)

(** The own enumerable properties that [{...v}] copies. *)
Definition indexKey (i : nat) : jsstring :=
  str (DecimalString.NilZero.string_of_uint (Nat.to_uint i)).

Definition spreadProps (v : json) : list (jsstring * json) :=
  match v with
  | JObj props => props
  | JArr items => imap (fun i x => (indexKey i, x)) items
  | JStr s => imap (fun i c => (indexKey i, JStr [c])) s
  | JNull | JBool _ | JNum _ => []
  end.


(** [{ ...entry, filename: name }] (route.ts, lines 151-154). *)
Definition overlayFilename (name : jsstring) (entry : json) : json :=
  JObj (setProp (str "filename") (JStr name) (spreadProps entry)).

(** [timeline.map(f)]: a [TypeError] when the decoded value is not an
    array. *)
Definition Array_map (f : json -> json) (v : json) : M json :=
  match v with
  | JArr items => mret (JArr (map f items))
  | _ => throw (ErrorObject (Some (str "timeline.map is not a function")))
  end.

(** The [try] block of lines 134-141. *)
Definition extractTimeline (text : jsstring) : M json :=
  match String_match jsonArrayPattern text with
  | Some jsonMatch => await (JSON_parse jsonMatch)
  | None => throw (ErrorObject (Some (str "No valid JSON found in response")))
  end.

Definition errorPayload (message : jsstring) : json :=
  JObj [(str "error", JStr message)].

(** ** [POST] (route.ts, lines 44-171) *)

(** Lines 46-130: the upload is received, written to its scratch file
    and sent to the model service.  The step yields the file, the path of
    the scratch file and the reply of the model. *)
Definition POST_transcribe (env : Env) (request : Request)
  : M (File * jsstring * jsstring) :=
  formData ← await (request_formData request);
  match FormData_get (str "video") formData with
  | None | Some (TextEntry []) =>
      (* [!file]: [null] and the empty string are falsy *)
      respond (NextResponse_json (errorPayload (str "No video file provided")) 400)
  | Some (TextEntry (_ :: _)) =>
      (* a string has no [arrayBuffer] method *)
      throw (ErrorObject (Some (str "file.arrayBuffer is not a function")))
  | Some (FileEntry file) =>
      let filename := uuidv4 env ++ str "-" ++ file_name file in
      let buffer := file_bytes file in
      let uploadDir := join (cwd env) (str "tmp") in
      present ← existsSync uploadDir;
      (if (present : bool) then ret tt else mkdir env uploadDir);;
      let filePath := join uploadDir filename in
      writeFile env filePath buffer;;
      result ← awaitRetry (callModel env);
      text ← await (response_text result);
      mret (file, filePath, text)
  end.

(** Lines 132-163: the reply is decoded, the file name is laid over every
    entry, the scratch file is deleted and the entries are returned. *)
Definition POST_respond (env : Env) (file : File) (filePath text : jsstring)
  : M Response :=
  timeline ← tryCatch (extractTimeline text)
    (fun error =>
       emit (EvConsole (LogParseFailure error));;
       respond (NextResponse_json
                  (errorPayload (str "Failed to parse transcription response")) 500));
  timeline ← Array_map (overlayFilename (file_name file)) timeline;
  tryCatch (unlink env filePath)
    (fun error => emit (EvConsole (LogUnlinkFailure error)));;
  mret (NextResponse_json timeline 200).

(** The body of the outer [try]. *)
Definition POST_try (env : Env) (request : Request) : M Response :=
  '(file, filePath, text) ← POST_transcribe env request;
  POST_respond env file filePath text.

(** The outer [catch]: [{ error: error instanceof Error ? error.message :
    'Failed to process video' }]; a property whose value is [undefined]
    is left out of the JSON body. *)
Definition failureBody (error : thrown) : json :=
  match error with
  | ErrorObject (Some message) => errorPayload message
  | ErrorObject None => JObj []
  | NonError _ => errorPayload (str "Failed to process video")
  end.

Definition POST_catch (error : thrown) : M Response :=
  emit (EvConsole (LogProcessingFailure error));;
  respond (NextResponse_json (failureBody error) 500).

(** What a call of the handler comes to: the response it resolves to, or
    the value it rejects with. *)
Inductive Settled : Type :=
| Resolved (r : Response)
| Rejected (e : thrown).

Definition settle (r : Completion Response * World * list Event)
  : Settled * World * list Event :=
  match r with
  | (Normal r, w, tr) => (Resolved r, w, tr)
  | (Respond r, w, tr) => (Resolved r, w, tr)
  | (Abrupt e, w, tr) => (Rejected e, w, tr)
  end.

(** One call of the handler in the world [w]: how it settles, the world
    it leaves and the trace of what it did. *)
Definition POST (env : Env) (request : Request) (w : World)
  : Settled * World * list Event :=
  settle (tryCatch (POST_try env request) POST_catch w []).

(** ** [JSON.stringify(value, null, space)] *)

(** A hexadecimal digit, in lower case. *)
Definition hexDigit (d : N) : N := (if d <? 10 then 48 + d else 87 + d)%N.

(** [UnicodeEscape]: backslash, u and four hexadecimal digits. *)
Definition unicodeEscape (c : N) : jsstring :=
  [92; 117; hexDigit (c / 4096); hexDigit ((c / 256) mod 16);
   hexDigit ((c / 16) mod 16); hexDigit (c mod 16)]%N.

Definition isLeadSurrogate (c : N) : bool := ((0xD800 <=? c) && (c <=? 0xDBFF))%N.
Definition isTrailSurrogate (c : N) : bool := ((0xDC00 <=? c) && (c <=? 0xDFFF))%N.

(** One code unit that is not the first half of a surrogate pair. *)
Definition quoteChar (c : N) : jsstring :=
  (if c =? 8 then [92; 98]
   else if c =? 9 then [92; 116]
   else if c =? 10 then [92; 110]
   else if c =? 12 then [92; 102]
   else if c =? 13 then [92; 114]
   else if c =? 34 then [92; 34]
   else if c =? 92 then [92; 92]
   else if (c <? 32) || isLeadSurrogate c || isTrailSurrogate c then unicodeEscape c
   else [c])%N.

(** A surrogate pair is copied, a lone surrogate is escaped. *)
Fixpoint quoteChars (s : jsstring) : jsstring :=
  match s with
  | [] => []
  | c :: s1 =>
      if isLeadSurrogate c then
        match s1 with
        | d :: s2 =>
            if isTrailSurrogate d then c :: d :: quoteChars s2
            else unicodeEscape c ++ quoteChars s1
        | [] => unicodeEscape c
        end
      else quoteChar c ++ quoteChars s1
  end.

Definition QuoteJSONString (s : jsstring) : jsstring :=
  [34%N] ++ quoteChars s ++ [34%N].

(** [Array.prototype.join]. *)
Fixpoint joinWith (sep : jsstring) (parts : list jsstring) : jsstring :=
  match parts with
  | [] => []
  | [p] => p
  | p :: ps => p ++ sep ++ joinWith sep ps
  end.

(** [SerializeJSONProperty] with [SerializeJSONArray] and
    [SerializeJSONObject]; [gap] is the indentation unit and [indent] the
    current indentation. *)
Fixpoint serialize (gap indent : jsstring) (v : json) {struct v} : jsstring :=
  let stepback := indent in
  let indent := indent ++ gap in
  let wrap (open close : jsstring) (partial : list jsstring) : jsstring :=
    match partial with
    | [] => open ++ close
    | _ :: _ =>
        match gap with
        | [] => open ++ joinWith (str ",") partial ++ close
        | _ :: _ =>
            let separator := str "," ++ [10%N] ++ indent in
            open ++ [10%N] ++ indent ++ joinWith separator partial
                 ++ [10%N] ++ stepback ++ close
        end
    end in
  match v with
  | JNull => str "null"
  | JBool true => str "true"
  | JBool false => str "false"
  | JNum literal => literal
  | JStr s => QuoteJSONString s
  | JArr items => wrap (str "[") (str "]") (map (serialize gap indent) items)
  | JObj props =>
      wrap (str "{") (str "}")
        (map (fun kv =>
                QuoteJSONString (fst kv) ++ str ":"
                  ++ match gap with [] => [] | _ :: _ => str " " end
                  ++ serialize gap indent (snd kv))
             props)
  end.

(** [JSON.stringify(value, null, space)] for a number [space]: the gap is
    [min(10, space)] spaces. *)
Definition JSON_stringify (value : json) (space : nat) : jsstring :=
  serialize (repeat 32%N (Nat.min 10 space)) [] value.

(** ** [handleDownload] (page.tsx, lines 60-75) *)

Record Download : Type := {
  download_name : jsstring;   (* [a.download] *)
  download_type : jsstring;   (* the type of the blob *)
  download_text : jsstring    (* the text of the blob *)
}.

(** [s.split('.')[0]]. *)
Fixpoint beforeDot (s : jsstring) : jsstring :=
  match s with
  | [] => []
  | c :: s' => if (c =? 46)%N then [] else c :: beforeDot s'
  end.

(** [file] and [timeline] are the component's state, [now] is
    [new Date().toISOString()]. *)
Definition handleDownload (file : option File) (now : jsstring) (timeline : list json)
  : option Download :=
  match timeline with
  | [] => None
  | _ :: _ =>
      let timestamp := map (fun c => if ((c =? 58) || (c =? 46))%N then 45%N else c) now in
      let base :=
        match file with
        | Some f => beforeDot (file_name f)
        | None => str "undefined"
        end in
      Some {| download_name := str "ASR_" ++ base ++ str "_" ++ timestamp ++ str ".json";
              download_type := str "application/json";
              download_text := JSON_stringify (JArr timeline) 2 |}
  end.


(** * Vocabulary of the statements *)

(** ** The retry policy *)

Section RetryVocabulary.
Context {S T : Type} (fn : S -> outcome T * S).

(** The operation fails with a rate-limit failure at every call. *)
Definition alwaysRateLimited : Prop :=
  forall s, exists e s', fn s = (Throw e, s') /\ isRateLimit e = true.

(** The state of the operation after [k] calls. *)
Definition stateAfter (k : nat) (s : S) : S :=
  Nat.iter k (fun s => snd (fn s)) s.

End RetryVocabulary.

(** The trace of [k] rate-limited turns that start at [retries], followed
    by a last call. *)
Fixpoint backoffTrace (initialDelay retries : Z) (k : nat) : list Event :=
  match k with
  | O => [EvInvoke]
  | Datatypes.S k' =>
      let delay := (initialDelay * 2 ^ retries)%Z in
      [EvInvoke; EvConsole (LogRateLimited delay); EvWait delay]
        ++ backoffTrace initialDelay (retries + 1) k'
  end.

(** ** The runs of the handler *)

(** The events of [retryWithBackoff]. *)
Definition isRetryEvent (ev : Event) : bool :=
  match ev with
  | EvInvoke | EvWait _ | EvConsole (LogRateLimited _) => true
  | _ => false
  end.

(** The events of lines 46-130. *)
Definition isTranscribeEvent (ev : Event) : bool :=
  match ev with
  | EvMkdir _ | EvWriteFile _ => true
  | _ => isRetryEvent ev
  end.



(** The 400 response of line 50. *)
Definition badRequest : Response :=
  NextResponse_json (errorPayload (str "No video file provided")) 400.

(** A step of the transcription stage: started after directory, write
    and retry events only, it adds only such events, and the one response
    it may return from the handler with is the 400 of line 50. *)
Definition transcribeStep {A : Type} (m : M A) : Prop :=
  forall w tr,
    Forall (fun ev => isTranscribeEvent ev = true) tr ->
    exists c w' tr',
      m w tr = (c, w', tr')
      /\ Forall (fun ev => isTranscribeEvent ev = true) tr'
      /\ match c with
         | Respond r => r = badRequest
         | _ => True
         end.



(** ** The pattern, in the words of the specification *)

Definition allWhiteSpace (s : jsstring) : Prop :=
  Forall (fun c => isWhiteSpace c = true) s.

(** Follows the specification: an opening bracket, an opening brace,
    arbitrary content, a closing brace, a closing bracket, with the
    white space that the pattern admits after the opening bracket and
    before the closing one. *)
Definition arrayOfObjectsShape (m : jsstring) : Prop :=
  exists ws1 content ws2,
    allWhiteSpace ws1 /\ allWhiteSpace ws2 /\
    m = str "[" ++ ws1 ++ str "{" ++ content ++ str "}" ++ ws2 ++ str "]".

(** The end of the pattern, from the closing brace on. *)
Definition closingPattern : list Atom :=
  [One (isChar "}"); Many isWhiteSpace; One (isChar "]")].

(** ** Entries as the [TimelineEntry] interface declares them *)

(** An object whose properties all hold strings. *)
Definition stringProps (props : list (jsstring * jsstring)) : list (jsstring * json) :=
  map (fun kv => (fst kv, JStr (snd kv))) props.

(** A value of the client's [timeline]: an object with string-valued
    properties (as [filename], [tc_in], [tc_out], [speaker] and [dialogue]
    are), in any order; an object has no repeated key. *)
Definition isStringRecord (v : json) : Prop :=
  exists props, v = JObj (stringProps props) /\ NoDup (map fst props).

Definition allJsonWs (s : jsstring) : Prop :=
  Forall (fun c => isJsonWs c = true) s.

(** The text of one member in the indented form. *)
Definition memberText (kv : jsstring * jsstring) : jsstring :=
  QuoteJSONString (fst kv) ++ str ": " ++ QuoteJSONString (snd kv).

(** The text of one such object; the gap is [g :: gap]. *)
Definition recordText (g : N) (gap indent : jsstring) (props : list (jsstring * jsstring))
  : jsstring :=
  serialize (g :: gap) indent (JObj (stringProps props)).

(** ** Sample operations, requests and platforms *)

(** An operation that is rate limited at every call; its state counts the
    calls. *)
Definition always429 (n : nat) : outcome unit * nat :=
  (Throw (ErrorObject (Some (str "[429 Too Many Requests] quota exceeded"))),
   Datatypes.S n).

(** An operation that fails at every call with a failure that is not a
    rate-limit failure. *)
Definition alwaysForbidden (n : nat) : outcome unit * nat :=
  (Throw (ErrorObject (Some (str "[403 Forbidden] API key not valid"))), Datatypes.S n).

(** The 10-byte upload of the specification's scenario. *)
Definition sampleFile : File :=
  {| file_name := str "clip.mp4"; file_type := str "video/mp4";
     file_bytes := [0; 1; 2; 3; 4; 5; 6; 7; 8; 9]%N |}.

Definition sampleRequest : Request :=
  {| request_formData := Return [(str "video", FileEntry sampleFile)] |}.

(** A form without the [video] field. *)
Definition noVideoRequest : Request :=
  {| request_formData := Return [(str "audio", FileEntry sampleFile)] |}.

(** A platform without file-system failures, whose model service answers
    the k-th call with [replies k]. *)
Definition platform (replies : nat -> outcome GenerateContentResult) : Env :=
  {| uuidv4 := str "3f0c";
     cwd := str "/srv/app";
     mkdir_error := None;
     writeFile_error := None;
     unlink_error := None;
     generateContent := replies |}.

Definition replying (text : jsstring) : Env :=
  platform (fun _ => Return {| response_text := Return text |}).

(** The model service is rate limited twice and then replies. *)
Definition rateLimitedTwice (text : jsstring) : Env :=
  platform (fun k =>
              if (k <? 2)%nat
              then Throw (ErrorObject (Some (str "[429 Too Many Requests] quota exceeded")))
              else Return {| response_text := Return text |}).

(** The model service fails at every call with a failure that is not a
    rate-limit failure. *)
Definition upstreamDown : Env :=
  platform (fun _ => Throw (ErrorObject (Some (str "[500 Internal Server Error]")))).


Definition emptyWorld : World := {| files := ∅; dirs := ∅; calls := 0 |}.

(** The scratch file of [sampleRequest] on these platforms. *)
Definition samplePath : jsstring := str "/srv/app/tmp/3f0c-clip.mp4".

(** The world after [sampleRequest] has been persisted and the model
    service called once, and the trace up to there. *)
Definition persistedWorld : World :=
  {| files := {[ samplePath := file_bytes sampleFile ]};
     dirs := {[ str "/srv/app/tmp" ]};
     calls := 1 |}.

Definition persistedTrace : list Event :=
  [EvMkdir (str "/srv/app/tmp"); EvWriteFile samplePath; EvInvoke].

(** The reply of the specification's parser example, the substring that
    the pattern selects in it and the entries it decodes to. *)
Definition sampleReply : jsstring :=
  dq "blah [{'tc_in':'00:00:00:00','tc_out':'00:00:01:00','speaker':'Speaker 1','dialogue':'hi'}] blah".

Definition sampleMatch : jsstring :=
  dq "[{'tc_in':'00:00:00:00','tc_out':'00:00:01:00','speaker':'Speaker 1','dialogue':'hi'}]".

Definition sampleEntries : list json :=
  [JObj [(str "tc_in", JStr (str "00:00:00:00"));
         (str "tc_out", JStr (str "00:00:01:00"));
         (str "speaker", JStr (str "Speaker 1"));
         (str "dialogue", JStr (str "hi"))]].

(** The timeline that the handler returns for [sampleReply]. *)
Definition sampleTimeline : list json :=
  map (overlayFilename (str "clip.mp4")) sampleEntries.

(** A reply with two arrays, and the first of them. *)
Definition twoArraysReply : jsstring := dq "[{'a':'b'}] and [{'c':'d'}]".
Definition firstArray : jsstring := dq "[{'a':'b'}]".

(** A reply that reports an empty transcription. *)
Definition emptyArrayReply : jsstring := str "No speech was found: [] (empty)".

(** * Further vocabulary *)

(** ** The retry policy *)

(** The time that a run spends in [wait], in milliseconds. *)
Definition totalWait (tr : list Event) : Z := fold_right Z.add 0%Z (waits tr).

(** An outcome on which the loop stops whatever the count of retries: a
    value, or a failure that is not a rate-limit failure. *)
Definition settles {T : Type} (o : outcome T) : Prop :=
  match o with
  | Return _ => True
  | Throw e => isRateLimit e = false
  end.

(** The call is rate limited. *)
Definition rateLimited {T : Type} (o : outcome T) : Prop :=
  exists e, o = Throw e /\ isRateLimit e = true.

(** An operation that is rate limited twice and then returns; its state
    counts the calls. *)
Definition failsTwice (n : nat) : outcome jsstring * nat :=
  (if (n <? 2)%nat
   then Throw (ErrorObject (Some (str "[429 Too Many Requests] quota exceeded")))
   else Return (str "transcript"),
   Datatypes.S n).

(** An operation that is rate limited once and then fails for good. *)
Definition failsForGood (n : nat) : outcome jsstring * nat :=
  (if (n <? 1)%nat
   then Throw (ErrorObject (Some (str "[429 Too Many Requests] quota exceeded")))
   else Throw (ErrorObject (Some (str "[400 Bad Request] unsupported MIME type"))),
   Datatypes.S n).

(** ** The footprint of the handler *)

(** [uploadDir] and [filePath] (route.ts, lines 57-67). *)
Definition uploadDir (env : Env) : jsstring := join (cwd env) (str "tmp").

Definition scratchPath (env : Env) (file : File) : jsstring :=
  join (uploadDir env) (uuidv4 env ++ str "-" ++ file_name file).

(** The upload of a request: the file in the [video] field of its form,
    when there is one. *)
Definition videoOf (request : Request) : option File :=
  match request_formData request with
  | Return formData =>
      match FormData_get (str "video") formData with
      | Some (FileEntry file) => Some file
      | _ => None
      end
  | Throw _ => None
  end.

(** What the transcription stage comes to after the call of the model
    service that ends the retry loop. *)
Definition replyOf (file : File) (filePath : jsstring) (o : outcome GenerateContentResult)
  : Completion (File * jsstring * jsstring) :=
  match o with
  | Return result =>
      match response_text result with
      | Return text => Normal (file, filePath, text)
      | Throw e => Abrupt e
      end
  | Throw e => Abrupt e
  end.

(** [existsSync(uploadDir)] in the world [w]. *)
Definition uploadDirExists (env : Env) (w : World) : bool :=
  bool_decide (uploadDir env ∈ dirs w) || bool_decide (is_Some (files w !! uploadDir env)).

(** The world once the directory is there, and what it took. *)
Definition prepared (env : Env) (w : World) : World :=
  {| files := files w;
     dirs := if uploadDirExists env w then dirs w else {[ uploadDir env ]} ∪ dirs w;
     calls := calls w |}.

Definition prepareTrace (env : Env) (w : World) : list Event :=
  if uploadDirExists env w then [] else [EvMkdir (uploadDir env)].

(** The world once the upload is written and the model service has been
    called [n] times. *)
Definition written (env : Env) (file : File) (n : nat) (w : World) : World :=
  {| files := <[ scratchPath env file := file_bytes file ]> (files w);
     dirs := dirs (prepared env w);
     calls := calls w + n |}.

(** The 500 response of lines 144-147. *)
Definition parseFailure : Response :=
  NextResponse_json (errorPayload (str "Failed to parse transcription response")) 500.

(** The 200 response of line 163 for the decoded [items]. *)
Definition transcription (file : File) (items : list json) : Response :=
  NextResponse_json (JArr (map (overlayFilename (file_name file)) items)) 200.

(** The runs of the handler on a request that carries [file], started in
    the world [w]: the response [r], the world [w'] that is left and the
    trace [tr].  The handler waits 1 s, 2 s and 4 s between the calls of
    the model service, which is called as often as the trace says and at
    most four times; at most the upload directory is added; and
    the run is of one of four kinds: a failure before the file is
    written, a failure after it is written, a success with the scratch
    file deleted, a success whose deletion failed. *)
Definition fileRun (env : Env) (file : File) (w : World)
    (r : Response) (w' : World) (tr : list Event) : Prop :=
  waits tr = map (fun i => (1000 * 2 ^ Z.of_nat i)%Z) (seq 0 (pred (invocations tr)))
  /\ calls w' = (calls w + invocations tr)%nat
  /\ (invocations tr <= 4)%nat
  /\ (dirs w' = dirs w \/ dirs w' = {[ uploadDir env ]} ∪ dirs w)
  /\ ((status r = 500%Z /\ invocations tr = 0%nat /\ files w' = files w
       /\ (exists e, (mkdir_error env = Some e \/ writeFile_error env = Some e)
                     /\ body r = failureBody e))
      \/ (status r = 500%Z /\ (0 < invocations tr)%nat
          /\ files w' = <[ scratchPath env file := file_bytes file ]> (files w)
          /\ exists e, body r = failureBody e)
      \/ (status r = 200%Z /\ (0 < invocations tr)%nat
          /\ (exists props items, r = transcription file (JObj props :: items))
          /\ unlink_error env = None
          /\ files w' = delete (scratchPath env file) (files w)
          /\ last tr = Some (EvUnlink (scratchPath env file)))
      \/ (status r = 200%Z /\ (0 < invocations tr)%nat
          /\ (exists props items, r = transcription file (JObj props :: items))
          /\ (exists e, unlink_error env = Some e
                        /\ last tr = Some (EvConsole (LogUnlinkFailure e)))
          /\ files w' = <[ scratchPath env file := file_bytes file ]> (files w))).

(** A form whose [video] field holds a text, not a file. *)
Definition textFieldRequest : Request :=
  {| request_formData := Return [(str "video", TextEntry (str "clip.mp4"))] |}.


(** A reply whose array holds a number between two objects, and what the
    handler answers to it. *)
Definition mixedReply : jsstring := dq "[{'speaker':'Speaker 1'}, 7, {'speaker':'Speaker 2'}]".

Definition mixedTimeline : list json :=
  [JObj [(str "speaker", JStr (str "Speaker 1")); (str "filename", JStr (str "clip.mp4"))];
   JObj [(str "filename", JStr (str "clip.mp4"))];
   JObj [(str "speaker", JStr (str "Speaker 2")); (str "filename", JStr (str "clip.mp4"))]].



(** * The page (page.tsx)

    The component [Home]: its state, its handlers and the conditions
    under which its buttons are there.  A handler runs on the state of
    the render that it belongs to; the setters of [useState] write one
    cell of the state each. *)

Module Home.

(** The state (lines 20-23).  [timeline] holds what a successful answer
    carried, which the declared type takes to be an array; [error] is
    [None] for [null] and for [undefined]. *)
Record State : Type := {
  file : option File;
  isLoading : bool;
  timeline : list json;
  error : option jsstring
}.

Definition initial : State :=
  {| file := None; isLoading := false; timeline := []; error := None |}.

Definition setFile (f : option File) (st : State) : State :=
  {| file := f; isLoading := isLoading st; timeline := timeline st; error := error st |}.

Definition setIsLoading (b : bool) (st : State) : State :=
  {| file := file st; isLoading := b; timeline := timeline st; error := error st |}.

Definition setTimeline (data : list json) (st : State) : State :=
  {| file := file st; isLoading := isLoading st; timeline := data; error := error st |}.

Definition setError (e : option jsstring) (st : State) : State :=
  {| file := file st; isLoading := isLoading st; timeline := timeline st; error := e |}.

(** [handleFileChange] (lines 25-31); [selectedFile] is
    [e.target.files?.[0]]. *)
Definition handleFileChange (selectedFile : option File) (st : State) : State :=
  match selectedFile with
  | Some f => setError None (setFile (Some f) st)
  | None => st
  end.

(** What the call of [fetch] and the reading of the answer come to. *)
Inductive FetchOutcome : Type :=
| FetchRejected (err : thrown)         (* [fetch] rejects *)
| NotOk                                (* [res.ok] is false *)
| Ok (data : outcome (list json)).     (* [res.ok], and what [res.json()] settles to *)

(** [err instanceof Error ? err.message : 'An error occurred']. *)
Definition catchMessage (err : thrown) : option jsstring :=
  match err with
  | ErrorObject message => message
  | NonError _ => Some (str "An error occurred")
  end.

(** [handleTranscribe] (lines 33-58) up to the call of [fetch]: nothing
    happens without a file; otherwise the state is set and the form is
    sent. *)
Definition handleTranscribe_begin (st : State)
  : option (list (jsstring * FormDataEntryValue) * State) :=
  match file st with
  | None => None
  | Some f => Some ([(str "video", FileEntry f)], setError None (setIsLoading true st))
  end.

(** [handleTranscribe] from the settling of [fetch] on: the rest of the
    [try] block, the [catch] block and the [finally] block. *)
Definition handleTranscribe_end (o : FetchOutcome) (st : State) : State :=
  setIsLoading false
    match o with
    | Ok (Return data) => setTimeline data st
    | Ok (Throw err) => setError (catchMessage err) st
    | NotOk => setError (catchMessage (ErrorObject (Some (str "Transcription failed")))) st
    | FetchRejected err => setError (catchMessage err) st
    end.

(** What the user and the network do to the page. *)
Inductive Action : Type :=
| Change (selectedFile : option File)   (* the file input changes *)
| ClickTranscribe
| FetchSettles (o : FetchOutcome)       (* the request in flight settles *)
| ClickDownload (now : jsstring).       (* at the time [now] *)

(** The page: the state of the component, the number of requests in
    flight, the forms sent and the files downloaded so far. *)
Record Page : Type := {
  state : State;
  inFlight : nat;
  requests : list (list (jsstring * FormDataEntryValue));
  downloads : list Download
}.

Definition start : Page :=
  {| state := initial; inFlight := 0; requests := []; downloads := [] |}.

(** One action.  The Transcribe button is rendered when a file is set
    and is disabled while [isLoading] (lines 101-104); the Download
    button is rendered when the timeline is not empty (lines 146-156); a
    request settles only when one is in flight. *)
Definition step (a : Action) (p : Page) : Page :=
  match a with
  | Change selectedFile =>
      {| state := handleFileChange selectedFile (state p);
         inFlight := inFlight p; requests := requests p; downloads := downloads p |}
  | ClickTranscribe =>
      match file (state p), isLoading (state p) with
      | Some _, false =>
          match handleTranscribe_begin (state p) with
          | Some (form, st) =>
              {| state := st; inFlight := Datatypes.S (inFlight p);
                 requests := requests p ++ [form]; downloads := downloads p |}
          | None => p
          end
      | _, _ => p
      end
  | FetchSettles o =>
      match inFlight p with
      | O => p
      | Datatypes.S n =>
          {| state := handleTranscribe_end o (state p);
             inFlight := n; requests := requests p; downloads := downloads p |}
      end
  | ClickDownload now =>
      match timeline (state p) with
      | [] => p
      | _ :: _ =>
          match handleDownload (file (state p)) now (timeline (state p)) with
          | Some d =>
              {| state := state p; inFlight := inFlight p; requests := requests p;
                 downloads := downloads p ++ [d] |}
          | None => p
          end
      end
  end.

Definition run (actions : list Action) (p : Page) : Page :=
  fold_left (fun p a => step a p) actions p.




End Home.

(** What holds of the page after every sequence of actions. *)
Definition pageInvariant (p : Home.Page) : Prop :=
  Home.inFlight p = (if Home.isLoading (Home.state p) then 1 else 0)%nat
  /\ (Home.isLoading (Home.state p) = true -> Home.error (Home.state p) = None)
  /\ (Home.isLoading (Home.state p) = true -> Home.file (Home.state p) <> None)
  /\ (Home.timeline (Home.state p) <> [] -> Home.file (Home.state p) <> None)
  /\ Forall (fun form => exists f, form = [(str "video", FileEntry f)]) (Home.requests p)
  /\ Forall (fun d => exists f now entry entries,
                 handleDownload (Some f) now (entry :: entries) = Some d)
       (Home.downloads p).






(** * Properties *)

(** ** Worked examples *)

Example match_prose :
  String_match jsonArrayPattern (str "Sure: [ {x} ] done") = Some (str "[ {x} ]").
Proof. vm_compute. reflexivity. Qed.

Example match_greedy :
  String_match jsonArrayPattern (str "[{a}] and [{b}] end") = Some (str "[{a}] and [{b}]").
Proof. vm_compute. reflexivity. Qed.

Example match_empty_array :
  String_match jsonArrayPattern (str "result: []") = None.
Proof. vm_compute. reflexivity. Qed.

Example parse_entry :
  JSON_parse (dq "[ {'tc_in': '00:00:00:00', 'n': -1.5e3, 'ok': [true, null]} ]") =
  Return (JArr [JObj [(str "tc_in", JStr (str "00:00:00:00"));
                      (str "n", JNum (str "-1.5e3"));
                      (str "ok", JArr [JBool true; JNull])]]).
Proof. vm_compute. reflexivity. Qed.

Example stringify_pretty :
  JSON_stringify (JArr [JObj [(str "speaker", JStr (str "Speaker 1"));
                              (str "dialogue", JStr (dq "say 'hi'"))]]) 2 =
  str "[" ++ [10%N] ++ dq "  {" ++ [10%N]
    ++ dq "    'speaker': 'Speaker 1'," ++ [10%N]
    ++ dq "    'dialogue': 'say " ++ [92%N] ++ dq "'hi" ++ [92%N] ++ dq "''" ++ [10%N]
    ++ str "  }" ++ [10%N] ++ str "]".
Proof. vm_compute. reflexivity. Qed.

Example stringify_parse :
  JSON_parse (JSON_stringify (JArr [JObj [(str "speaker", JStr (str "Speaker 1"));
                                          (str "dialogue", JStr ([0xD800; 7]%N ++ dq "say 'hi'"))];
                                    JObj []]) 2)
  = Return (JArr [JObj [(str "speaker", JStr (str "Speaker 1"));
                        (str "dialogue", JStr ([0xD800; 7]%N ++ dq "say 'hi'"))];
                  JObj []]).
Proof. vm_compute. reflexivity. Qed.

(** ** The retry policy *)

Example retry_default_trace :
  retryWithBackoff always429 3 1000 0%nat =
  (Throw (ErrorObject (Some (str "[429 Too Many Requests] quota exceeded"))), 4%nat,
   [EvInvoke; EvConsole (LogRateLimited 1000); EvWait 1000;
    EvInvoke; EvConsole (LogRateLimited 2000); EvWait 2000;
    EvInvoke; EvConsole (LogRateLimited 4000); EvWait 4000;
    EvInvoke]).
Proof. vm_compute. reflexivity. Qed.

Section RetryFacts.
Context {S T : Type} (fn : S -> outcome T * S).

(** One turn of the loop. *)
Lemma retryLoop_step maxRetries initialDelay retries s tr :
  retryLoop fn maxRetries initialDelay retries s tr =
  match fn s with
  | (Return v, s') => (Return v, s', tr ++ [EvInvoke])
  | (Throw e, s') =>
      if giveUp maxRetries retries e then (Throw e, s', tr ++ [EvInvoke])
      else
        let delay := (initialDelay * 2 ^ retries)%Z in
        retryLoop fn maxRetries initialDelay (retries + 1) s'
          (tr ++ [EvInvoke; EvConsole (LogRateLimited delay); EvWait delay])
  end.
Proof.
  funelim (retryLoop fn maxRetries initialDelay retries s tr);
    rewrite Heq; cbn;
    try match goal with H : giveUp _ _ _ = _ |- _ => rewrite H end;
    reflexivity.
Qed.

Lemma invocations_app tr1 tr2 :
  invocations (tr1 ++ tr2) = (invocations tr1 + invocations tr2)%nat.
Proof. unfold invocations. rewrite List.filter_app, length_app. reflexivity. Qed.

Lemma waits_app tr1 tr2 : waits (tr1 ++ tr2) = waits tr1 ++ waits tr2.
Proof. unfold waits. apply omap_app. Qed.

Lemma invocations_backoffTrace initialDelay retries k :
  invocations (backoffTrace initialDelay retries k) = Datatypes.S k.
Proof.
  revert retries. induction k as [|k IH]; intros retries; [reflexivity|].
  cbn [backoffTrace]. rewrite invocations_app, IH. reflexivity.
Qed.

Lemma waits_backoffTrace initialDelay retries k :
  (0 <= retries)%Z ->
  waits (backoffTrace initialDelay retries k) =
  map (fun i => (initialDelay * 2 ^ (retries + Z.of_nat i))%Z) (seq 0 k).
Proof.
  revert retries. induction k as [|k IH]; intros retries Hr; [reflexivity|].
  cbn [backoffTrace]. rewrite waits_app, IH by lia.
  cbn [seq map]. rewrite <- seq_shift, map_map.
  cbn. rewrite Z.add_0_r. f_equal.
  apply map_ext. intros i. do 2 f_equal. lia.
Qed.

Lemma stateAfter_succ k s : stateAfter fn (Datatypes.S k) s = stateAfter fn k (snd (fn s)).
Proof. unfold stateAfter. rewrite Nat.iter_succ_r. reflexivity. Qed.

(** When every call is rate limited the loop runs until [retries]
    reaches [maxRetries]: [k] more waits and [k + 1] more calls. *)
Lemma retryLoop_alwaysRateLimited maxRetries initialDelay :
  alwaysRateLimited fn ->
  forall k retries s tr,
    k = Z.to_nat (maxRetries - retries) ->
    exists e s',
      retryLoop fn maxRetries initialDelay retries s tr =
        (Throw e, s', tr ++ backoffTrace initialDelay retries k)
      /\ fn (stateAfter fn k s) = (Throw e, s').
Proof.
  intros Hrl k. induction k as [|k IH]; intros retries s tr Hk.
  - destruct (Hrl s) as (e & s' & Hfn & He).
    exists e, s'. rewrite retryLoop_step, Hfn.
    unfold giveUp. replace (retries >=? maxRetries)%Z with true by lia.
    cbn. split; [reflexivity | exact Hfn].
  - destruct (Hrl s) as (e & s' & Hfn & He).
    destruct (IH (retries + 1)%Z s'
                (tr ++ [EvInvoke;
                        EvConsole (LogRateLimited (initialDelay * 2 ^ retries));
                        EvWait (initialDelay * 2 ^ retries)]))
      as (e' & s'' & Hloop & Hlast); [lia|].
    exists e', s''. rewrite retryLoop_step, Hfn.
    unfold giveUp. replace (retries >=? maxRetries)%Z with false by lia.
    rewrite He. cbn [orb negb]. cbv zeta. rewrite Hloop.
    split.
    + cbn [backoffTrace]. rewrite <- app_assoc. reflexivity.
    + rewrite stateAfter_succ, Hfn. exact Hlast.
Qed.

(** When the first [k] calls are rate limited, [k] is within the bound
    and the next call returns, the loop returns its value after [k] waits
    and [k + 1] calls. *)
Lemma retryLoop_eventual_success maxRetries initialDelay v :
  forall k retries s tr,
    (forall i, (i < k)%nat ->
               exists e, fst (fn (stateAfter fn i s)) = Throw e /\ isRateLimit e = true) ->
    fst (fn (stateAfter fn k s)) = Return v ->
    (retries + Z.of_nat k <= maxRetries)%Z ->
    retryLoop fn maxRetries initialDelay retries s tr =
      (Return v, snd (fn (stateAfter fn k s)), tr ++ backoffTrace initialDelay retries k).
Proof.
  intros k. induction k as [|k IH]; intros retries s tr Hfail Hok Hbound.
  - change (stateAfter fn 0 s) with s in *. rewrite retryLoop_step.
    destruct (fn s) as [[v'|e] s']; cbn in Hok; [|discriminate Hok].
    injection Hok as ->. reflexivity.
  - destruct (Hfail 0%nat ltac:(lia)) as (e & He & Hrl).
    change (stateAfter fn 0 s) with s in He.
    rewrite stateAfter_succ in Hok. rewrite stateAfter_succ.
    rewrite retryLoop_step.
    destruct (fn s) as [[v'|e'] s'] eqn:Hfn; cbn in He; [discriminate He|].
    injection He as ->. cbn [snd] in *.
    unfold giveUp. replace (retries >=? maxRetries)%Z with false by lia.
    rewrite Hrl. cbn [orb negb]. cbv zeta.
    rewrite (IH (retries + 1)%Z s'); [|intros i Hi|exact Hok|lia].
    + cbn [backoffTrace]. rewrite <- app_assoc. reflexivity.
    + specialize (Hfail (Datatypes.S i) ltac:(lia)).
      rewrite stateAfter_succ, Hfn in Hfail. exact Hfail.
Qed.

End RetryFacts.

(** C2, as the claim words it, fails: with the default parameters an
    operation that is rate limited at every call is invoked four times,
    not at most three. *)
Lemma C2_retry_attempts_counterexample :
  invocations (snd (retryWithBackoff always429 3 1000 0%nat)) = 4%nat
  /\ ~ (forall (fn : nat -> outcome unit * nat) (maxAttempts initialDelay : Z) (s : nat),
          alwaysRateLimited fn ->
          (invocations (snd (retryWithBackoff fn maxAttempts initialDelay s))
           <= Z.to_nat maxAttempts)%nat).
Proof.
  split; [vm_compute; reflexivity|].
  intros H. specialize (H always429 3%Z 1000%Z 0%nat).
  assert (Hrl : alwaysRateLimited always429).
  { intros s. eexists _, _. split; [reflexivity | vm_compute; reflexivity]. }
  specialize (H Hrl). vm_compute in H. lia.
Qed.

(** C2 (amended): for an operation that is rate limited at every call,
    [retryWithBackoff] makes [maxRetries + 1] calls (four at the default
    [maxRetries = 3]), waits [initialDelay * 2^k] after the k-th of them,
    for k = 0 .. maxRetries - 1 (1 s, 2 s, 4 s at the defaults), and then
    throws the failure of the last call. *)
Theorem C2_retry_rate_limited :
  forall {S T : Type} (fn : S -> outcome T * S) (maxRetries initialDelay : Z) (s : S),
    alwaysRateLimited fn ->
    exists e s' tr,
      retryWithBackoff fn maxRetries initialDelay s = (Throw e, s', tr)
      /\ invocations tr = Datatypes.S (Z.to_nat maxRetries)
      /\ waits tr = map (fun k => (initialDelay * 2 ^ Z.of_nat k)%Z)
                        (seq 0 (Z.to_nat maxRetries))
      /\ fn (stateAfter fn (Z.to_nat maxRetries) s) = (Throw e, s').
Proof.
  intros S T fn maxRetries initialDelay s Hrl.
  destruct (retryLoop_alwaysRateLimited fn maxRetries initialDelay Hrl
              (Z.to_nat maxRetries) 0%Z s [])
    as (e & s' & Hloop & Hlast); [f_equal; lia|].
  exists e, s', (backoffTrace initialDelay 0 (Z.to_nat maxRetries)).
  split; [exact Hloop|]. split; [apply invocations_backoffTrace|].
  split; [|exact Hlast].
  rewrite waits_backoffTrace by lia. reflexivity.
Qed.

(** C2 (amended) at the default parameters: four calls, waits of 1 s, 2 s
    and 4 s. *)
Lemma C2_retry_rate_limited_witness :
  alwaysRateLimited always429 /\
  exists e s' tr,
    retryWithBackoff always429 3 1000 0%nat = (Throw e, s', tr)
    /\ invocations tr = 4%nat
    /\ waits tr = [1000; 2000; 4000]%Z
    /\ always429 (stateAfter always429 3 0%nat) = (Throw e, s').
Proof.
  assert (Hrl : alwaysRateLimited always429).
  { intros s. eexists _, _. split; [reflexivity | vm_compute; reflexivity]. }
  split; [exact Hrl|].
  exact (C2_retry_rate_limited always429 3%Z 1000%Z 0%nat Hrl).
Defined.

(** C3: when the first call of the operation fails with a failure that is
    not a rate-limit failure, [retryWithBackoff] throws that failure after
    this one call, without a wait and without a console line. *)
Theorem C3_retry_other_failure :
  forall {S T : Type} (fn : S -> outcome T * S) (maxRetries initialDelay : Z)
         (s s' : S) (e : thrown),
    fn s = (Throw e, s') ->
    isRateLimit e = false ->
    retryWithBackoff fn maxRetries initialDelay s = (Throw e, s', [EvInvoke]).
Proof.
  intros S T fn maxRetries initialDelay s s' e Hfn He.
  unfold retryWithBackoff. rewrite retryLoop_step, Hfn.
  unfold giveUp. rewrite He, orb_true_r. reflexivity.
Qed.

(** C3 at an operation that answers 403. *)
Lemma C3_retry_other_failure_witness :
  alwaysForbidden 0%nat =
    (Throw (ErrorObject (Some (str "[403 Forbidden] API key not valid"))), 1%nat)
  /\ isRateLimit (ErrorObject (Some (str "[403 Forbidden] API key not valid"))) = false
  /\ retryWithBackoff alwaysForbidden 3 1000 0%nat =
       (Throw (ErrorObject (Some (str "[403 Forbidden] API key not valid"))), 1%nat,
        [EvInvoke]).
Proof.
  split; [reflexivity|]. split; [vm_compute; reflexivity|].
  apply (C3_retry_other_failure alwaysForbidden 3%Z 1000%Z 0%nat 1%nat);
    [reflexivity | vm_compute; reflexivity].
Defined.

(** ** The handler *)

(** Runs the monadic steps whose arguments are known. *)
Ltac run_step :=
  unfold mbind, M_bind, mret, M_ret;
  unfold bind, await, tryCatch, emit, respond, throw;
  unfold ret;
  cbn beta iota.

(** C7: a request whose form has no [video] field is answered with 400
    and [{error: "No video file provided"}]; nothing is written and the
    model service is not called (the world is unchanged and the trace is
    empty). *)
Theorem C7_missing_video :
  forall (env : Env) (request : Request) (w : World)
         (formData : list (jsstring * FormDataEntryValue)),
    request_formData request = Return formData ->
    FormData_get (str "video") formData = None ->
    POST env request w =
      (Resolved {| status := 400;
                   body := JObj [(str "error", JStr (str "No video file provided"))] |},
       w, []).
Proof.
  intros env request w formData Hform Hget.
  unfold POST, POST_try, POST_transcribe.
  rewrite Hform. run_step. rewrite Hget. reflexivity.
Qed.

(** C7 at a form that holds an [audio] field only. *)
Lemma C7_missing_video_witness :
  request_formData noVideoRequest = Return [(str "audio", FileEntry sampleFile)]
  /\ FormData_get (str "video") [(str "audio", FileEntry sampleFile)] = None
  /\ POST (replying sampleReply) noVideoRequest emptyWorld =
       (Resolved {| status := 400;
                    body := JObj [(str "error", JStr (str "No video file provided"))] |},
        emptyWorld, []).
Proof.
  split; [reflexivity|]. split; [vm_compute; reflexivity|].
  apply (C7_missing_video (replying sampleReply) noVideoRequest emptyWorld
           [(str "audio", FileEntry sampleFile)]);
    [reflexivity | vm_compute; reflexivity].
Defined.

(** The scenario of the specification: the model service is rate limited
    twice and then replies; the handler makes three calls, waits 1 s and
    2 s, answers 200 and deletes the scratch file. *)
Example scenario_two_rate_limits :
  exists w' tr,
    POST (rateLimitedTwice sampleReply) sampleRequest emptyWorld =
      (Resolved {| status := 200; body := JArr sampleTimeline |}, w', tr)
    /\ invocations tr = 3%nat
    /\ waits tr = [1000; 2000]%Z
    /\ files w' !! samplePath = None.
Proof.
  eexists _, _. split; [vm_compute; reflexivity|].
  repeat split; vm_compute; reflexivity.
Qed.

Example sample_transcribed :
  POST_transcribe (replying (str "I cannot transcribe this.")) sampleRequest emptyWorld [] =
  (Normal (sampleFile, samplePath, str "I cannot transcribe this."),
   persistedWorld, persistedTrace).
Proof. vm_compute. reflexivity. Qed.

(** The decoding step does not touch the world or the trace. *)
Lemma extractTimeline_pure text w tr :
  extractTimeline text w tr =
  match String_match jsonArrayPattern text with
  | Some m =>
      match JSON_parse m with
      | Return v => (Normal v, w, tr)
      | Throw e => (Abrupt e, w, tr)
      end
  | None => (Abrupt (ErrorObject (Some (str "No valid JSON found in response"))), w, tr)
  end.
Proof.
  unfold extractTimeline.
  destruct (String_match jsonArrayPattern text) as [m|]; [|reflexivity].
  destruct (JSON_parse m); reflexivity.
Qed.

(** The handler after a successful transcription step. *)
Lemma POST_transcribed env request w file filePath text w1 tr1 :
  POST_transcribe env request w [] = (Normal (file, filePath, text), w1, tr1) ->
  POST env request w =
  settle (tryCatch (POST_respond env file filePath text) POST_catch w1 tr1).
Proof.
  intros H. unfold POST, POST_try. run_step. rewrite H. reflexivity.
Qed.

(** A failed decoding: the early [return] of lines 144-147. *)
Lemma POST_respond_parse_failure env file filePath text w tr e :
  extractTimeline text w tr = (Abrupt e, w, tr) ->
  POST_respond env file filePath text w tr =
  (Respond (NextResponse_json
              (errorPayload (str "Failed to parse transcription response")) 500),
   w, tr ++ [EvConsole (LogParseFailure e)]).
Proof.
  intros H. unfold POST_respond. run_step. rewrite H. reflexivity.
Qed.



Lemma getProp_setProp_eq k v props : getProp k (setProp k v props) = Some v.
Proof.
  induction props as [|[k' v'] props IH]; cbn.
  - rewrite decide_True by reflexivity. reflexivity.
  - destruct (decide (k' = k)) as [->|Hne]; cbn.
    + rewrite decide_True by reflexivity. reflexivity.
    + rewrite decide_False by exact Hne. exact IH.
Qed.


(** C5: when the reply holds no match of the pattern, or the match is
    not valid JSON, the handler logs the parse failure and answers 500
    with [{error: "Failed to parse transcription response"}]. *)
Theorem C5_parse_failure :
  forall (env : Env) (request : Request) (w w1 : World) (tr1 : list Event)
         (file : File) (filePath text : jsstring),
    POST_transcribe env request w [] = (Normal (file, filePath, text), w1, tr1) ->
    (String_match jsonArrayPattern text = None
     \/ exists m e, String_match jsonArrayPattern text = Some m
                    /\ JSON_parse m = Throw e) ->
    exists e,
      POST env request w =
        (Resolved {| status := 500;
                     body := JObj [(str "error",
                                    JStr (str "Failed to parse transcription response"))] |},
         w1, tr1 ++ [EvConsole (LogParseFailure e)]).
Proof.
  intros env request w w1 tr1 file filePath text Htr Hbad.
  rewrite (POST_transcribed _ _ _ _ _ _ _ _ Htr).
  assert (exists e, extractTimeline text w1 tr1 = (Abrupt e, w1, tr1)) as [e He].
  { rewrite extractTimeline_pure.
    destruct Hbad as [-> | (m & e & -> & ->)]; eauto. }
  exists e. unfold tryCatch.
  rewrite (POST_respond_parse_failure _ _ _ _ _ _ _ He). reflexivity.
Qed.

(** C5 at a reply without any bracket. *)
Lemma C5_parse_failure_witness :
  POST_transcribe (replying (str "I cannot transcribe this.")) sampleRequest emptyWorld [] =
    (Normal (sampleFile, samplePath, str "I cannot transcribe this."),
     persistedWorld, persistedTrace)
  /\ String_match jsonArrayPattern (str "I cannot transcribe this.") = None
  /\ exists e,
       POST (replying (str "I cannot transcribe this.")) sampleRequest emptyWorld =
         (Resolved {| status := 500;
                      body := JObj [(str "error",
                                     JStr (str "Failed to parse transcription response"))] |},
          persistedWorld, persistedTrace ++ [EvConsole (LogParseFailure e)]).
Proof.
  split; [vm_compute; reflexivity|]. split; [vm_compute; reflexivity|].
  apply (C5_parse_failure (replying (str "I cannot transcribe this.")) sampleRequest
           emptyWorld persistedWorld persistedTrace sampleFile samplePath
           (str "I cannot transcribe this."));
    [vm_compute; reflexivity | left; vm_compute; reflexivity].
Defined.



(** *** The shape of every run *)

Section RetryTrace.
Context {S T : Type} (fn : S -> outcome T * S).

(** The loop only adds calls, rate-limit lines and waits to the trace. *)
Lemma retryLoop_trace maxRetries initialDelay :
  forall k retries s tr,
    k = Z.to_nat (maxRetries - retries) ->
    exists tr',
      snd (retryLoop fn maxRetries initialDelay retries s tr) = tr ++ tr'
      /\ Forall (fun ev => isRetryEvent ev = true) tr'.
Proof.
  intros k. induction k as [|k IH]; intros retries s tr Hk;
    rewrite retryLoop_step; destruct (fn s) as [[v|e] s'].
  1, 3: exists [EvInvoke]; split; [reflexivity | repeat constructor].
  - destruct (giveUp maxRetries retries e) eqn:Hg.
    + exists [EvInvoke]. split; [reflexivity | repeat constructor].
    + unfold giveUp in Hg. apply orb_false_iff in Hg as [Hg _]. lia.
  - destruct (giveUp maxRetries retries e) eqn:Hg.
    + exists [EvInvoke]. split; [reflexivity | repeat constructor].
    + cbv zeta.
      destruct (IH (retries + 1)%Z s'
                  (tr ++ [EvInvoke;
                          EvConsole (LogRateLimited (initialDelay * 2 ^ retries));
                          EvWait (initialDelay * 2 ^ retries)]))
        as (tr' & Htr & Hall); [lia|].
      rewrite Htr, <- app_assoc. eexists. split; [reflexivity|].
      apply Forall_app. split; [repeat constructor | exact Hall].
Qed.

Lemma retryWithBackoff_trace maxRetries initialDelay s :
  Forall (fun ev => isRetryEvent ev = true)
         (snd (retryWithBackoff fn maxRetries initialDelay s)).
Proof.
  destruct (retryLoop_trace maxRetries initialDelay _ 0%Z s [] eq_refl)
    as (tr' & Htr & Hall).
  unfold retryWithBackoff. rewrite Htr. exact Hall.
Qed.
End RetryTrace.

Lemma isRetryEvent_transcribe ev : isRetryEvent ev = true -> isTranscribeEvent ev = true.
Proof. destruct ev; cbn; congruence. Qed.

(** The rules of [transcribeStep], one for each construct of the stage. *)
Lemma transcribeStep_ret {A} (a : A) : transcribeStep (ret a).
Proof. intros w tr Htr. exists (Normal a), w, tr. repeat split; assumption. Qed.

Lemma transcribeStep_throw {A} e : transcribeStep (@throw A e).
Proof. intros w tr Htr. exists (Abrupt e), w, tr. repeat split; assumption. Qed.

Lemma transcribeStep_badRequest {A} : transcribeStep (@respond A badRequest).
Proof. intros w tr Htr. exists (Respond badRequest), w, tr. repeat split; assumption. Qed.

Lemma transcribeStep_await {A} (p : outcome A) : transcribeStep (await p).
Proof. destruct p; [apply transcribeStep_ret | apply transcribeStep_throw]. Qed.


Lemma transcribeStep_existsSync path : transcribeStep (existsSync path).
Proof. intros w tr Htr. eexists _, _, _. split; [reflexivity|]. split; [exact Htr | exact I]. Qed.

Lemma transcribeStep_mkdir env path : transcribeStep (mkdir env path).
Proof.
  intros w tr Htr. unfold mkdir.
  destruct (mkdir_error env); eexists _, _, _; (split; [reflexivity|]);
    (split; [|exact I]); apply Forall_app; (split; [exact Htr | repeat constructor]).
Qed.

Lemma transcribeStep_writeFile env path data : transcribeStep (writeFile env path data).
Proof.
  intros w tr Htr. unfold writeFile.
  destruct (writeFile_error env); eexists _, _, _; (split; [reflexivity|]);
    (split; [|exact I]); apply Forall_app; (split; [exact Htr | repeat constructor]).
Qed.

Lemma transcribeStep_awaitRetry {T} (fn : World -> outcome T * World) :
  transcribeStep (awaitRetry fn).
Proof.
  intros w tr Htr. unfold awaitRetry.
  pose proof (retryWithBackoff_trace fn 3 1000 w) as Hretry.
  destruct (retryWithBackoff fn 3 1000 w) as [[[v|e] w'] tr']; cbn [snd] in Hretry;
    eexists _, _, _; (split; [reflexivity|]); (split; [|exact I]);
    (apply Forall_app; split;
     [exact Htr | eapply Forall_impl; [exact Hretry | exact isRetryEvent_transcribe]]).
Qed.

Create HintDb transcribe.
#[local] Hint Resolve transcribeStep_ret transcribeStep_throw transcribeStep_badRequest
  transcribeStep_await transcribeStep_existsSync transcribeStep_mkdir
  transcribeStep_writeFile transcribeStep_awaitRetry : transcribe.






(** ** The scratch file *)


(** C1 (the defect): on the two failure paths that follow the write of
    the scratch file, a reply that cannot be parsed and a failure of the
    model service, the handler answers 500 and the scratch file is still
    there: no [unlink] was attempted. *)
Theorem C1_scratch_file_left_behind :
  (exists (w' : World) (tr : list Event) (e : thrown),
     POST (replying (str "I cannot transcribe this.")) sampleRequest emptyWorld =
       (Resolved {| status := 500;
                    body := errorPayload (str "Failed to parse transcription response") |},
        w', tr)
     /\ tr = persistedTrace ++ [EvConsole (LogParseFailure e)]
     /\ files w' !! samplePath = Some (file_bytes sampleFile))
  /\
  (exists (w' : World) (tr : list Event) (e : thrown),
     POST upstreamDown sampleRequest emptyWorld =
       (Resolved {| status := 500;
                    body := errorPayload (str "[500 Internal Server Error]") |},
        w', tr)
     /\ tr = persistedTrace ++ [EvConsole (LogProcessingFailure e)]
     /\ files w' !! samplePath = Some (file_bytes sampleFile)).
Proof.
  split; eexists _, _, _; (split; [vm_compute; reflexivity|]);
    (split; [reflexivity | vm_compute; reflexivity]).
Qed.

(** ** The pattern *)

(** Brings nested concatenations to the right-nested form. *)
Ltac list_norm :=
  repeat (progress (rewrite <- ?app_assoc; cbn [app])).

Ltac list_norm_in H :=
  repeat (progress (rewrite <- ?app_assoc in H; cbn [app] in H)).

Ltac chars :=
  change (str "[") with [ch "["]; change (str "{") with [ch "{"];
  change (str "}") with [ch "}"]; change (str "]") with [ch "]"].

Lemma matchHere_many p r s :
  matchHere (Many p :: r) s =
  match s with
  | c :: s' =>
      if p c then
        match matchHere (Many p :: r) s' with
        | Some n => Some (Datatypes.S n)
        | None => matchHere r s
        end
      else matchHere r s
  | [] => matchHere r s
  end.
Proof. destruct s; reflexivity. Qed.

Lemma matchHere_one p r s :
  matchHere (One p :: r) s =
  match s with
  | c :: s' => if p c then option_map Datatypes.S (matchHere r s') else None
  | [] => None
  end.
Proof. reflexivity. Qed.

(** A star takes a prefix of characters of its class; the rest of the
    pattern matches what follows. *)
Lemma matchHere_many_sound p r s n :
  matchHere (Many p :: r) s = Some n ->
  exists a b m,
    s = a ++ b /\ Forall (fun c => p c = true) a
    /\ matchHere r b = Some m /\ n = (length a + m)%nat.
Proof.
  revert n. induction s as [|c s IH]; intros n; rewrite matchHere_many.
  - intros H. exists [], [], n. repeat split; [constructor | exact H].
  - destruct (p c) eqn:Hp.
    + destruct (matchHere (Many p :: r) s) as [n'|] eqn:Hs.
      * intros [= <-]. destruct (IH n' eq_refl) as (a & b & m & -> & Ha & Hb & ->).
        exists (c :: a), b, m. repeat split; [constructor; assumption | exact Hb].
      * intros H. exists [], (c :: s), n. repeat split; [constructor | exact H].
    + intros H. exists [], (c :: s), n. repeat split; [constructor | exact H].
Qed.

(** A star before a character that is not of its class takes the whole
    run of characters of the class. *)
Lemma matchHere_many_run p q r ws rest :
  (forall c, p c = true -> q c = false) ->
  Forall (fun c => p c = true) ws ->
  match rest with c :: _ => p c = false | [] => True end ->
  matchHere (Many p :: One q :: r) (ws ++ rest) =
  option_map (Nat.add (length ws)) (matchHere (One q :: r) rest).
Proof.
  intros Hpq Hws Hrest. induction Hws as [|c ws Hc Hws IH].
  - cbn [app length]. rewrite matchHere_many.
    destruct rest as [|c rest]; [reflexivity|]. rewrite Hrest.
    destruct (matchHere (One q :: r) (c :: rest)); reflexivity.
  - cbn [app length]. rewrite matchHere_many, Hc, IH.
    destruct (matchHere (One q :: r) rest) as [n|]; cbn [option_map]; [reflexivity|].
    rewrite matchHere_one, (Hpq c Hc). reflexivity.
Qed.

(** A star of a class that holds every character, put in front of more
    text, still finds the match it found. *)
Lemma matchHere_many_app p r a x n :
  (forall c, p c = true) ->
  matchHere (Many p :: r) x = Some n ->
  matchHere (Many p :: r) (a ++ x) = Some (length a + n)%nat.
Proof.
  intros Hp Hx. induction a as [|c a IH]; [exact Hx|].
  cbn [app length]. rewrite matchHere_many, Hp, IH. reflexivity.
Qed.

Lemma anyChar_true c : anyChar c = true.
Proof. unfold anyChar. destruct (isWhiteSpace c); reflexivity. Qed.

Lemma isChar_eq a c : isChar a c = true <-> c = ch a.
Proof. unfold isChar. apply N.eqb_eq. Qed.

Lemma whiteSpace_not_brace c : isWhiteSpace c = true -> isChar "{" c = false.
Proof.
  intros Hws. destruct (isChar "{" c) eqn:Hc; [|reflexivity].
  apply isChar_eq in Hc. subst c. vm_compute in Hws. discriminate Hws.
Qed.

Lemma whiteSpace_not_bracket c : isWhiteSpace c = true -> isChar "]" c = false.
Proof.
  intros Hws. destruct (isChar "]" c) eqn:Hc; [|reflexivity].
  apply isChar_eq in Hc. subst c. vm_compute in Hws. discriminate Hws.
Qed.

(** The end of the pattern: a closing brace, white space, a closing
    bracket. *)
Lemma closing_sound s n :
  matchHere closingPattern s = Some n ->
  exists ws rest,
    allWhiteSpace ws /\ s = ch "}" :: ws ++ ch "]" :: rest
    /\ n = (length ws + 2)%nat.
Proof.
  unfold closingPattern. rewrite matchHere_one.
  destruct s as [|c s]; [discriminate|].
  destruct (isChar "}" c) eqn:Hc; [|discriminate].
  apply isChar_eq in Hc. subst c.
  destruct (matchHere (Many isWhiteSpace :: [One (isChar "]")]) s) as [n'|] eqn:Hs;
    [|discriminate].
  intros [= <-].
  apply matchHere_many_sound in Hs as (ws & b & m & -> & Hws & Hb & ->).
  rewrite matchHere_one in Hb. destruct b as [|d rest]; [discriminate|].
  destruct (isChar "]" d) eqn:Hd; [|discriminate].
  apply isChar_eq in Hd. subst d. cbn in Hb. injection Hb as <-.
  exists ws, rest. repeat split; [exact Hws | lia].
Qed.

Lemma closing_complete ws rest :
  allWhiteSpace ws ->
  matchHere closingPattern (ch "}" :: ws ++ ch "]" :: rest) = Some (length ws + 2)%nat.
Proof.
  intros Hws. unfold closingPattern. rewrite matchHere_one.
  replace (isChar "}" (ch "}")) with true by reflexivity.
  rewrite (matchHere_many_run isWhiteSpace (isChar "]") [] ws (ch "]" :: rest)
             whiteSpace_not_bracket Hws eq_refl).
  rewrite matchHere_one. replace (isChar "]" (ch "]")) with true by reflexivity.
  cbn. f_equal. lia.
Qed.

(** The greedy star before the end of the pattern reaches at least as far
    as any closing brace from which the end of the pattern matches. *)
Lemma greedy_reaches_closing x k :
  matchHere closingPattern x = Some k ->
  exists n, matchHere (Many anyChar :: closingPattern) x = Some n /\ (k <= n)%nat.
Proof.
  intros Hx. destruct (closing_sound x k Hx) as (ws & rest & Hws & -> & ->).
  rewrite matchHere_many, anyChar_true.
  destruct (matchHere (Many anyChar :: closingPattern) (ws ++ ch "]" :: rest))
    as [n'|] eqn:Hinner; [|exists (length ws + 2)%nat; split; [exact Hx | lia]].
  exists (Datatypes.S n'). split; [reflexivity|].
  apply matchHere_many_sound in Hinner as (a & b & m & Hab & _ & Hb & ->).
  apply closing_sound in Hb as (ws' & rest' & _ & -> & ->).
  (* the closing brace of the later match lies behind the white space
     and the bracket *)
  assert (length ws < length a)%nat; [|lia].
  destruct (decide (length a <= length ws)%nat) as [Hle|]; [exfalso|lia].
  assert (Hlook : (ws ++ ch "]" :: rest) !! length a = Some (ch "}")).
  { rewrite Hab. rewrite lookup_app_r by lia.
    replace (length a - length a)%nat with 0%nat by lia. reflexivity. }
  destruct (decide (length a = length ws)) as [Heq|Hne].
  - rewrite lookup_app_r, Heq in Hlook by lia.
    replace (length ws - length ws)%nat with 0%nat in Hlook by lia.
    discriminate Hlook.
  - rewrite lookup_app_l in Hlook by lia.
    unfold allWhiteSpace in Hws. rewrite Forall_forall in Hws.
    apply list_elem_of_lookup_2, Hws in Hlook. vm_compute in Hlook. discriminate.
Qed.

Lemma jsonArrayPattern_unfold :
  jsonArrayPattern =
  One (isChar "[") :: Many isWhiteSpace :: One (isChar "{") :: Many anyChar :: closingPattern.
Proof. reflexivity. Qed.

(** What the pattern matches at the start of a text has the shape that
    the specification describes. *)
Lemma pattern_sound s n :
  matchHere jsonArrayPattern s = Some n ->
  exists m post, s = m ++ post /\ length m = n /\ arrayOfObjectsShape m.
Proof.
  rewrite jsonArrayPattern_unfold, matchHere_one.
  destruct s as [|c s]; [discriminate|].
  destruct (isChar "[" c) eqn:Hc; [|discriminate].
  apply isChar_eq in Hc. subst c.
  destruct (matchHere (Many isWhiteSpace :: One (isChar "{") :: Many anyChar :: closingPattern) s)
    as [n1|] eqn:H1; [|discriminate].
  intros [= <-].
  apply matchHere_many_sound in H1 as (ws1 & b & n2 & -> & Hws1 & H2 & ->).
  rewrite matchHere_one in H2. destruct b as [|d b]; [discriminate|].
  destruct (isChar "{" d) eqn:Hd; [|discriminate].
  apply isChar_eq in Hd. subst d.
  destruct (matchHere (Many anyChar :: closingPattern) b) as [n3|] eqn:H3; [|discriminate].
  injection H2 as <-.
  apply matchHere_many_sound in H3 as (content & t & n4 & -> & _ & H4 & ->).
  apply closing_sound in H4 as (ws2 & rest & Hws2 & -> & ->).
  exists (str "[" ++ ws1 ++ str "{" ++ content ++ str "}" ++ ws2 ++ str "]"), rest.
  split; [|split].
  - chars. list_norm. reflexivity.
  - chars. list_norm. cbn [length]. rewrite ?length_app. cbn [length].
    rewrite ?length_app. cbn [length]. rewrite ?length_app. cbn [length]. lia.
  - exists ws1, content, ws2. repeat split; assumption.
Qed.

(** At the start of a text that begins with a substring of that shape,
    the pattern matches, and its match is at least as long. *)
Lemma pattern_longest m post :
  arrayOfObjectsShape m ->
  exists n, matchHere jsonArrayPattern (m ++ post) = Some n /\ (length m <= n)%nat.
Proof.
  intros (ws1 & content & ws2 & Hws1 & Hws2 & ->).
  chars.
  destruct (greedy_reaches_closing (ch "}" :: ws2 ++ ch "]" :: post) _
              (closing_complete ws2 post Hws2)) as (n0 & Hn0 & Hle).
  pose proof (matchHere_many_app anyChar closingPattern content _ n0 anyChar_true Hn0)
    as Hbody.
  exists (Datatypes.S (length ws1 + Datatypes.S (length content + n0))). split.
  - rewrite jsonArrayPattern_unfold. list_norm. rewrite matchHere_one.
    replace (isChar "[" (ch "[")) with true by reflexivity.
    rewrite (matchHere_many_run isWhiteSpace (isChar "{") _ ws1 (ch "{" :: _)
               whiteSpace_not_brace Hws1 eq_refl).
    rewrite matchHere_one.
    replace (isChar "{" (ch "{")) with true by reflexivity.
    rewrite Hbody. reflexivity.
  - list_norm. cbn [length]. rewrite ?length_app. cbn [length].
    rewrite ?length_app. cbn [length]. rewrite ?length_app. cbn [length]. lia.
Qed.

(** The search returns the first start position at which the pattern
    matches. *)
Lemma regexExec_Some r s i n :
  regexExec r s = Some (i, n) ->
  matchHere r (drop i s) = Some n /\ (i <= length s)%nat
  /\ forall j, (j < i)%nat -> matchHere r (drop j s) = None.
Proof.
  revert i n. induction s as [|c s IH]; intros i n; cbn [regexExec].
  - destruct (matchHere r []) as [n0|] eqn:H0; [|discriminate].
    intros [= <- <-]. repeat split; [exact H0 | lia | intros; lia].
  - destruct (matchHere r (c :: s)) as [n0|] eqn:H0.
    + intros [= <- <-]. repeat split; [exact H0 | lia | intros; lia].
    + destruct (regexExec r s) as [[i' n']|] eqn:Hs; [|discriminate].
      intros [= <- <-]. destruct (IH i' n' eq_refl) as (Hm & Hi & Hbefore).
      repeat split; [exact Hm | cbn; lia |].
      intros [|j] Hj; [exact H0|]. cbn. apply Hbefore. lia.
Qed.

Lemma regexExec_None r s :
  regexExec r s = None ->
  forall j, (j <= length s)%nat -> matchHere r (drop j s) = None.
Proof.
  induction s as [|c s IH]; cbn [regexExec].
  - destruct (matchHere r []) eqn:H0; [discriminate|].
    intros _ j Hj. rewrite drop_nil. exact H0.
  - destruct (matchHere r (c :: s)) eqn:H0; [discriminate|].
    destruct (regexExec r s) as [[i' n']|] eqn:Hs; [discriminate|].
    intros _ [|j] Hj; [exact H0|]. cbn. apply IH; [reflexivity | cbn in Hj; lia].
Qed.

(** The substring that the route selects: the match of the pattern that
    starts first and, from there, ends last. *)
Lemma String_match_leftmost_longest text :
  (exists pre m post, text = pre ++ m ++ post /\ arrayOfObjectsShape m) ->
  exists pre m post,
    text = pre ++ m ++ post /\ arrayOfObjectsShape m
    /\ String_match jsonArrayPattern text = Some m
    /\ forall pre' m' post',
         text = pre' ++ m' ++ post' -> arrayOfObjectsShape m' ->
         (length pre <= length pre')%nat
         /\ (length pre' = length pre -> (length m' <= length m)%nat).
Proof.
  intros (pre0 & m0 & post0 & Htext & Hshape0).
  assert (Hat : forall pre' m' post',
             text = pre' ++ m' ++ post' -> arrayOfObjectsShape m' ->
             exists n, matchHere jsonArrayPattern (drop (length pre') text) = Some n
                       /\ (length m' <= n)%nat).
  { intros pre' m' post' -> Hshape. rewrite drop_app_length.
    apply pattern_longest. exact Hshape. }
  destruct (regexExec jsonArrayPattern text) as [[i n]|] eqn:Hexec.
  - destruct (regexExec_Some _ _ _ _ Hexec) as (Hm & Hi & Hbefore).
    destruct (pattern_sound _ _ Hm) as (m & post & Hdrop & Hlen & Hshape).
    exists (take i text), m, post.
    assert (Hpre : length (take i text) = i) by (rewrite length_take; lia).
    split; [|split; [exact Hshape|split]].
    + rewrite <- Hdrop. symmetry. apply take_drop.
    + unfold String_match. rewrite Hexec, Hdrop, <- Hlen.
      rewrite take_app_length. reflexivity.
    + intros pre' m' post' Htext' Hshape'. rewrite Hpre.
      destruct (Hat pre' m' post' Htext' Hshape') as (n' & Hn' & Hle).
      split.
      * destruct (decide (length pre' < i)%nat) as [Hlt|]; [|lia].
        rewrite (Hbefore _ Hlt) in Hn'. discriminate Hn'.
      * intros Heq. rewrite Heq, Hm in Hn'. injection Hn' as <-. lia.
  - destruct (Hat pre0 m0 post0 Htext Hshape0) as (n & Hn & _).
    rewrite (regexExec_None _ _ Hexec) in Hn; [discriminate Hn|].
    rewrite Htext, length_app. lia.
Qed.

(** C4, as the claim words it, fails: in a reply with two arrays the
    first array is a substring of the required shape at the very start of
    the reply, no shorter one starts there, and it is valid JSON; yet the
    route selects the whole reply, up to the end of the second array,
    fails to decode it and answers 500. *)
Lemma C4_first_array_counterexample :
  twoArraysReply = firstArray ++ dq " and [{'c':'d'}]"
  /\ arrayOfObjectsShape firstArray
  /\ (forall m' post', twoArraysReply = m' ++ post' -> arrayOfObjectsShape m' ->
                       (length firstArray <= length m')%nat)
  /\ JSON_parse firstArray = Return (JArr [JObj [(str "a", JStr (str "b"))]])
  /\ String_match jsonArrayPattern twoArraysReply = Some twoArraysReply
  /\ String_match jsonArrayPattern twoArraysReply <> Some firstArray
  /\ exists w' tr,
       POST (replying twoArraysReply) sampleRequest emptyWorld =
         (Resolved {| status := 500;
                      body := errorPayload (str "Failed to parse transcription response") |},
          w', tr).
Proof.
  split; [vm_compute; reflexivity|].
  split.
  { exists [], (dq "'a':'b'"), [].
    split; [apply List.Forall_nil|]. split; [apply List.Forall_nil|].
    vm_compute. reflexivity. }
  split.
  { intros m' post' Htext (ws1 & content & ws2 & _ & _ & Hm').
    destruct (decide (length firstArray <= length m')%nat) as [|Hshort]; [assumption|].
    exfalso.
    assert (Hlast : (m' ++ post') !! (length m' - 1)%nat = Some (ch "]")).
    { rewrite lookup_app_l.
      - rewrite Hm'. chars. list_norm.
        rewrite !app_comm_cons, !app_assoc.
        rewrite lookup_app_r by (cbn [length]; rewrite ?length_app; cbn [length]; lia).
        match goal with |- [_] !! ?i = _ => replace i with 0%nat end; [reflexivity|].
        cbn [length]. rewrite ?length_app. cbn [length]. rewrite ?length_app.
        cbn [length]. rewrite ?length_app. cbn [length]. lia.
      - rewrite Hm'. chars. cbn [app length]. lia. }
    rewrite <- Htext in Hlast.
    assert (Hn : (length m' - 1 < 10)%nat).
    { change (length firstArray) with 11%nat in Hshort. lia. }
    revert Hlast Hn. generalize (length m' - 1)%nat. intros n Hlast Hn.
    do 10 (destruct n as [|n]; [vm_compute in Hlast; discriminate Hlast|]). lia. }
  split; [vm_compute; reflexivity|].
  split; [vm_compute; reflexivity|].
  split; [vm_compute; discriminate|].
  eexists _, _. vm_compute. reflexivity.
Qed.

Lemma shape_head m : arrayOfObjectsShape m -> exists x, m = ch "[" :: x.
Proof. intros (ws1 & content & ws2 & _ & _ & ->). chars. cbn [app]. eauto. Qed.

Lemma shape_last m : arrayOfObjectsShape m -> exists x, m = x ++ [ch "]"].
Proof.
  intros (ws1 & content & ws2 & _ & _ & ->). chars.
  exists ([ch "["] ++ ws1 ++ [ch "{"] ++ content ++ [ch "}"] ++ ws2).
  list_norm. reflexivity.
Qed.

(** Two splittings of a text with prefixes of the same length and middle
    parts of the same length are the same. *)
Lemma split3_unique (pre m post pre' m' post' : jsstring) :
  pre ++ m ++ post = pre' ++ m' ++ post' ->
  length pre = length pre' -> length m = length m' ->
  pre = pre' /\ m = m' /\ post = post'.
Proof.
  intros Heq Hpre Hm.
  apply app_inj_1 in Heq as [-> Heq]; [|exact Hpre].
  apply app_inj_1 in Heq as [-> ->]; [|exact Hm].
  repeat split.
Qed.

(** When the prose before a substring of the required shape holds no
    opening bracket and the prose after it no closing bracket, the match
    that starts first and ends last is this substring. *)
Lemma leftmost_longest_between pre m post pre' m' post' :
  pre ++ m ++ post = pre' ++ m' ++ post' ->
  arrayOfObjectsShape m -> arrayOfObjectsShape m' ->
  (length pre <= length pre')%nat ->
  (length pre' = length pre -> (length m' <= length m)%nat) ->
  ch "[" ∉ pre' -> ch "]" ∉ post' ->
  pre' = pre /\ m' = m /\ post' = post.
Proof.
  intros Heq Hshape Hshape' Hleft Hlong Hpre' Hpost'.
  destruct (shape_head m Hshape) as [x Hx].
  destruct (shape_last m Hshape) as [y Hy].
  assert (Hlen : length pre' = length pre).
  { destruct (decide (length pre < length pre')%nat) as [Hlt|]; [exfalso|lia].
    assert (Hlook : (pre ++ m ++ post) !! length pre = Some (ch "[")).
    { rewrite lookup_app_r by lia. rewrite Nat.sub_diag, Hx. reflexivity. }
    rewrite Heq, lookup_app_l in Hlook by exact Hlt.
    apply list_elem_of_lookup_2 in Hlook. contradiction. }
  specialize (Hlong Hlen).
  assert (Hm : length m = length m').
  { destruct (decide (length m' < length m)%nat) as [Hlt|]; [exfalso|lia].
    assert (Hm0 : (length m = length y + 1)%nat).
    { rewrite Hy, length_app. cbn. lia. }
    assert (Hlook : (pre ++ m ++ post) !! (length pre + length y)%nat = Some (ch "]")).
    { rewrite lookup_app_r by lia.
      replace (length pre + length y - length pre)%nat with (length y) by lia.
      rewrite lookup_app_l by lia. rewrite Hy, lookup_app_r by lia.
      rewrite Nat.sub_diag. reflexivity. }
    rewrite Heq, lookup_app_r in Hlook by lia.
    rewrite lookup_app_r in Hlook by lia.
    apply list_elem_of_lookup_2 in Hlook. contradiction. }
  symmetry in Heq.
  destruct (split3_unique _ _ _ _ _ _ Heq Hlen (eq_sym Hm)) as (-> & -> & ->).
  repeat split.
Qed.

(** C4 (amended): in a reply that holds a substring of the required
    shape, the route selects the match that starts first and, from that
    start, ends last (so it runs to the last closing brace and bracket of
    the reply), and it is exactly this substring that is decoded.  It is
    the array itself whenever the prose before the array holds no opening
    bracket and the prose after it no closing bracket. *)
Theorem C4_selects_leftmost_longest :
  forall text : jsstring,
    (exists pre m post, text = pre ++ m ++ post /\ arrayOfObjectsShape m) ->
    exists pre m post,
      text = pre ++ m ++ post /\ arrayOfObjectsShape m
      /\ String_match jsonArrayPattern text = Some m
      /\ extractTimeline text = await (JSON_parse m)
      /\ (forall pre' m' post',
            text = pre' ++ m' ++ post' -> arrayOfObjectsShape m' ->
            (length pre <= length pre')%nat
            /\ (length pre' = length pre -> (length m' <= length m)%nat))
      /\ (forall pre' m' post',
            text = pre' ++ m' ++ post' -> arrayOfObjectsShape m' ->
            ch "[" ∉ pre' -> ch "]" ∉ post' ->
            pre' = pre /\ m' = m /\ post' = post).
Proof.
  intros text Hsome.
  destruct (String_match_leftmost_longest text Hsome)
    as (pre & m & post & Htext & Hshape & Hmatch & Hfirst).
  exists pre, m, post.
  split; [exact Htext|]. split; [exact Hshape|]. split; [exact Hmatch|].
  split; [unfold extractTimeline; rewrite Hmatch; reflexivity|].
  split; [exact Hfirst|].
  intros pre' m' post' Htext' Hshape' Hpre' Hpost'.
  destruct (Hfirst pre' m' post' Htext' Hshape') as [Hleft Hlong].
  apply (leftmost_longest_between pre m post pre' m' post');
    try assumption.
  rewrite <- Htext. exact Htext'.
Qed.

Lemma sampleMatch_shape : arrayOfObjectsShape sampleMatch.
Proof.
  exists [], (dq "'tc_in':'00:00:00:00','tc_out':'00:00:01:00','speaker':'Speaker 1','dialogue':'hi'"), [].
  split; [apply List.Forall_nil|]. split; [apply List.Forall_nil|].
  vm_compute. reflexivity.
Qed.

(** C4 at the parser example of the specification. *)
Lemma C4_selects_leftmost_longest_witness :
  (sampleReply = str "blah " ++ sampleMatch ++ str " blah"
   /\ arrayOfObjectsShape sampleMatch)
  /\ exists pre m post,
       sampleReply = pre ++ m ++ post /\ arrayOfObjectsShape m
       /\ String_match jsonArrayPattern sampleReply = Some m
       /\ extractTimeline sampleReply = await (JSON_parse m)
       /\ (forall pre' m' post',
             sampleReply = pre' ++ m' ++ post' -> arrayOfObjectsShape m' ->
             (length pre <= length pre')%nat
             /\ (length pre' = length pre -> (length m' <= length m)%nat))
       /\ (forall pre' m' post',
             sampleReply = pre' ++ m' ++ post' -> arrayOfObjectsShape m' ->
             ch "[" ∉ pre' -> ch "]" ∉ post' ->
             pre' = pre /\ m' = m /\ post' = post).
Proof.
  assert (Hsplit : sampleReply = str "blah " ++ sampleMatch ++ str " blah"
                   /\ arrayOfObjectsShape sampleMatch).
  { split; [vm_compute; reflexivity | exact sampleMatch_shape]. }
  split; [exact Hsplit|].
  apply (C4_selects_leftmost_longest sampleReply).
  exists (str "blah "), sampleMatch, (str " blah"). exact Hsplit.
Defined.

(** ** The empty array *)

(** Where the pattern matches, the text starts with an opening bracket
    that is followed by white space or by an opening brace. *)
Lemma pattern_start s n :
  matchHere jsonArrayPattern s = Some n ->
  exists c rest, s = ch "[" :: c :: rest /\ (isWhiteSpace c = true \/ c = ch "{").
Proof.
  intros Hm.
  destruct (pattern_sound s n Hm)
    as (m & post & -> & _ & (ws1 & content & ws2 & Hws1 & _ & ->)).
  chars. list_norm. destruct Hws1 as [|c ws1 Hc Hws1]; cbn [app].
  - eexists _, _. split; [reflexivity|]. right. reflexivity.
  - eexists _, _. split; [reflexivity|]. left. exact Hc.
Qed.

(** A reply whose only opening bracket belongs to an empty array has no
    match of the pattern. *)
Lemma String_match_empty_array pre post :
  ch "[" ∉ pre -> ch "[" ∉ post ->
  String_match jsonArrayPattern (pre ++ str "[]" ++ post) = None.
Proof.
  intros Hpre Hpost. unfold String_match.
  destruct (regexExec jsonArrayPattern (pre ++ str "[]" ++ post))
    as [[i n]|] eqn:Hexec; [exfalso|reflexivity].
  destruct (regexExec_Some _ _ _ _ Hexec) as (Hm & _ & _).
  destruct (pattern_start _ _ Hm) as (c & rest & Hdrop & Hc).
  assert (H0 : (pre ++ str "[]" ++ post) !! i = Some (ch "[")).
  { rewrite <- (Nat.add_0_r i), <- lookup_drop, Hdrop. reflexivity. }
  assert (H1 : (pre ++ str "[]" ++ post) !! (i + 1)%nat = Some c).
  { rewrite <- lookup_drop, Hdrop. reflexivity. }
  change (str "[]") with [ch "["; ch "]"] in H0, H1. cbn [app] in H0, H1.
  assert (Hi : i = length pre).
  { destruct (decide (i < length pre)%nat) as [Hlt|Hge].
    - rewrite lookup_app_l in H0 by exact Hlt.
      apply list_elem_of_lookup_2 in H0. contradiction.
    - rewrite lookup_app_r in H0 by lia.
      destruct (i - length pre)%nat as [|[|j]] eqn:Hj; [lia| |].
      + discriminate H0.
      + cbn in H0. apply list_elem_of_lookup_2 in H0. contradiction. }
  subst i. rewrite lookup_app_r in H1 by lia.
  replace (length pre + 1 - length pre)%nat with 1%nat in H1 by lia.
  injection H1 as <-. destruct Hc as [Hc|Hc]; vm_compute in Hc; discriminate Hc.
Qed.

(** C10: when the only bracketed part of the reply is the empty array,
    the pattern, which needs an object between the brackets, finds no
    match; the handler logs the parse failure and answers 500 instead of
    an empty list of entries. *)
Theorem C10_empty_array_rejected :
  forall (env : Env) (request : Request) (w w1 : World) (tr1 : list Event)
         (file : File) (filePath text pre post : jsstring),
    POST_transcribe env request w [] = (Normal (file, filePath, text), w1, tr1) ->
    text = pre ++ str "[]" ++ post ->
    ch "[" ∉ pre -> ch "[" ∉ post ->
    String_match jsonArrayPattern text = None
    /\ POST env request w =
         (Resolved {| status := 500;
                      body := JObj [(str "error",
                                     JStr (str "Failed to parse transcription response"))] |},
          w1,
          tr1 ++ [EvConsole (LogParseFailure
                               (ErrorObject (Some (str "No valid JSON found in response"))))]).
Proof.
  intros env request w w1 tr1 file filePath text pre post Htr -> Hpre Hpost.
  pose proof (String_match_empty_array pre post Hpre Hpost) as Hnone.
  split; [exact Hnone|].
  rewrite (POST_transcribed _ _ _ _ _ _ _ _ Htr). unfold tryCatch.
  rewrite (POST_respond_parse_failure _ _ _ _ _ _
             (ErrorObject (Some (str "No valid JSON found in response")))).
  - reflexivity.
  - rewrite extractTimeline_pure, Hnone. reflexivity.
Qed.

(** C10 at a reply that reports an empty transcription. *)
Lemma C10_empty_array_rejected_witness :
  POST_transcribe (replying emptyArrayReply) sampleRequest emptyWorld [] =
    (Normal (sampleFile, samplePath, emptyArrayReply), persistedWorld, persistedTrace)
  /\ emptyArrayReply = str "No speech was found: " ++ str "[]" ++ str " (empty)"
  /\ (ch "[" ∉ str "No speech was found: ")
  /\ (ch "[" ∉ str " (empty)")
  /\ String_match jsonArrayPattern emptyArrayReply = None
  /\ POST (replying emptyArrayReply) sampleRequest emptyWorld =
       (Resolved {| status := 500;
                    body := JObj [(str "error",
                                   JStr (str "Failed to parse transcription response"))] |},
        persistedWorld,
        persistedTrace ++ [EvConsole (LogParseFailure
                             (ErrorObject (Some (str "No valid JSON found in response"))))]).
Proof.
  assert (Hpre : ch "[" ∉ str "No speech was found: ")
    by (apply (bool_decide_unpack _); vm_compute; exact I).
  assert (Hpost : ch "[" ∉ str " (empty)")
    by (apply (bool_decide_unpack _); vm_compute; exact I).
  split; [vm_compute; reflexivity|]. split; [vm_compute; reflexivity|].
  split; [exact Hpre|]. split; [exact Hpost|].
  apply (C10_empty_array_rejected (replying emptyArrayReply) sampleRequest emptyWorld
           persistedWorld persistedTrace sampleFile samplePath emptyArrayReply
           (str "No speech was found: ") (str " (empty)"));
    [vm_compute; reflexivity | vm_compute; reflexivity | exact Hpre | exact Hpost].
Defined.

(** ** Strings: [QuoteJSONString] and the string literal of [JSON.parse] *)

Lemma hexValue_hexDigit d : (d < 16)%N -> hexValue (hexDigit d) = Some d.
Proof.
  intros Hd. unfold hexValue, hexDigit, isDigit.
  destruct (d <? 10)%N eqn:H10.
  - apply N.ltb_lt in H10.
    replace ((48 <=? 48 + d) && (48 + d <=? 57))%N with true
      by (symmetry; apply andb_true_iff; split; apply N.leb_le; lia).
    f_equal. lia.
  - apply N.ltb_ge in H10.
    replace ((48 <=? 87 + d) && (87 + d <=? 57))%N with false
      by (symmetry; apply andb_false_iff; right; apply N.leb_gt; lia).
    replace ((97 <=? 87 + d) && (87 + d <=? 102))%N with true
      by (symmetry; apply andb_true_iff; split; apply N.leb_le; lia).
    f_equal. lia.
Qed.

Lemma hex4_digits c :
  (c < 65536)%N ->
  hex4 (hexDigit (c / 4096)) (hexDigit ((c / 256) mod 16))
       (hexDigit ((c / 16) mod 16)) (hexDigit (c mod 16)) = Some c.
Proof.
  intros Hc. unfold hex4.
  assert (H3 : (c / 4096 < 16)%N) by (apply N.Div0.div_lt_upper_bound; lia).
  assert (H2 : ((c / 256) mod 16 < 16)%N) by (apply N.mod_lt; lia).
  assert (H1 : ((c / 16) mod 16 < 16)%N) by (apply N.mod_lt; lia).
  assert (H0 : (c mod 16 < 16)%N) by (apply N.mod_lt; lia).
  rewrite !hexValue_hexDigit by assumption. f_equal.
  pose proof (N.div_mod c 16 ltac:(lia)) as E0.
  pose proof (N.div_mod (c / 16) 16 ltac:(lia)) as E1.
  pose proof (N.div_mod (c / 256) 16 ltac:(lia)) as E2.
  assert (E16 : (c / 16 / 16 = c / 256)%N) by (rewrite N.Div0.div_div; reflexivity).
  assert (E256 : (c / 256 / 16 = c / 4096)%N) by (rewrite N.Div0.div_div; reflexivity).
  rewrite E16 in E1. rewrite E256 in E2.
  assert (E3 : ((c / 4096) mod 16 = c / 4096)%N) by (apply N.mod_small; exact H3).
  lia.
Qed.

Lemma parseChars_unicodeEscape c x :
  (c < 65536)%N ->
  parseChars (unicodeEscape c ++ x) = consChar c (parseChars x).
Proof.
  intros Hc. unfold unicodeEscape. cbn [app parseChars].
  replace (92 =? 34)%N with false by reflexivity.
  replace (92 =? 92)%N with true by reflexivity.
  replace (117 =? 117)%N with true by reflexivity.
  rewrite hex4_digits by exact Hc. reflexivity.
Qed.

Lemma parseChars_plain c x :
  (c =? 34)%N = false -> (c =? 92)%N = false -> (c <? 32)%N = false ->
  parseChars (c :: x) = consChar c (parseChars x).
Proof. intros H34 H92 H32. cbn [parseChars]. rewrite H34, H92, H32. reflexivity. Qed.

Lemma parseChars_escape e d x :
  (e =? 117)%N = false -> simpleEscape e = Some d ->
  parseChars (92 :: e :: x)%N = consChar d (parseChars x).
Proof.
  intros Hu He. cbn [parseChars].
  replace (92 =? 34)%N with false by reflexivity.
  replace (92 =? 92)%N with true by reflexivity.
  rewrite Hu, He. reflexivity.
Qed.

Lemma surrogate_bound c :
  isLeadSurrogate c = true \/ isTrailSurrogate c = true ->
  (c < 65536)%N /\ (c =? 34)%N = false /\ (c =? 92)%N = false /\ (c <? 32)%N = false.
Proof.
  unfold isLeadSurrogate, isTrailSurrogate.
  intros [H|H]; apply andb_true_iff in H as [Hlo Hhi];
    apply N.leb_le in Hlo, Hhi;
    (split; [lia|]); repeat split;
    try (apply N.eqb_neq; lia); apply N.ltb_ge; lia.
Qed.

(** One code unit, quoted and read back. *)
Lemma parseChars_quoteChar c x :
  parseChars (quoteChar c ++ x) = consChar c (parseChars x).
Proof.
  unfold quoteChar.
  destruct (c =? 8)%N eqn:H8;
    [apply N.eqb_eq in H8; subst c; apply parseChars_escape; reflexivity|].
  destruct (c =? 9)%N eqn:H9;
    [apply N.eqb_eq in H9; subst c; apply parseChars_escape; reflexivity|].
  destruct (c =? 10)%N eqn:H10;
    [apply N.eqb_eq in H10; subst c; apply parseChars_escape; reflexivity|].
  destruct (c =? 12)%N eqn:H12;
    [apply N.eqb_eq in H12; subst c; apply parseChars_escape; reflexivity|].
  destruct (c =? 13)%N eqn:H13;
    [apply N.eqb_eq in H13; subst c; apply parseChars_escape; reflexivity|].
  destruct (c =? 34)%N eqn:H34;
    [apply N.eqb_eq in H34; subst c; apply parseChars_escape; reflexivity|].
  destruct (c =? 92)%N eqn:H92;
    [apply N.eqb_eq in H92; subst c; apply parseChars_escape; reflexivity|].
  destruct (c <? 32)%N eqn:H32; cbn [orb].
  - apply parseChars_unicodeEscape. apply N.ltb_lt in H32. lia.
  - destruct (isLeadSurrogate c || isTrailSurrogate c) eqn:Hs.
    + apply parseChars_unicodeEscape.
      apply orb_true_iff in Hs. apply surrogate_bound in Hs. tauto.
    + apply parseChars_plain; assumption.
Qed.

(** A quoted string, read back up to its closing quote. *)
Lemma parseChars_quoteChars s rest :
  parseChars (quoteChars s ++ 34%N :: rest) = POk s rest.
Proof.
  assert (H : forall n s, (length s <= n)%nat ->
                          parseChars (quoteChars s ++ 34%N :: rest) = POk s rest).
  { intros n. induction n as [|n IH]; intros [|c s'] Hlen;
      try reflexivity; [cbn in Hlen; lia|].
    cbn [length] in Hlen. cbn [quoteChars].
    destruct (isLeadSurrogate c) eqn:Hlead.
    - destruct (surrogate_bound c (or_introl Hlead)) as (Hc & H34 & H92 & H32).
      destruct s' as [|d s''].
      + rewrite parseChars_unicodeEscape by exact Hc. reflexivity.
      + destruct (isTrailSurrogate d) eqn:Htrail.
        * destruct (surrogate_bound d (or_intror Htrail)) as (_ & G34 & G92 & G32).
          cbn [app]. rewrite parseChars_plain by assumption.
          rewrite parseChars_plain by assumption.
          rewrite IH by (cbn [length] in Hlen; lia). reflexivity.
        * rewrite <- app_assoc, parseChars_unicodeEscape by exact Hc.
          rewrite IH by lia. reflexivity.
    - rewrite <- app_assoc, parseChars_quoteChar, IH by lia. reflexivity. }
  apply (H (length s)). lia.
Qed.

(** ** The fuel of [JSON.parse] *)

Lemma skipWs_length s : (length (skipWs s) <= length s)%nat.
Proof.
  induction s as [|c s IH]; cbn; [lia|].
  destruct (isJsonWs c); cbn; lia.
Qed.

Lemma skipWs_cons s c s1 : skipWs s = c :: s1 -> (length s1 < length s)%nat.
Proof. intros H. pose proof (skipWs_length s) as Hl. rewrite H in Hl. cbn in Hl. lia. Qed.

Lemma consChar_POk c x cs r :
  consChar c x = POk cs r -> exists cs', cs = c :: cs' /\ x = POk cs' r.
Proof. destruct x; cbn; [intros [= <- <-]; eauto | discriminate | discriminate]. Qed.

Lemma consChar_fuel c x : consChar c x = PFuel -> x = PFuel.
Proof. destruct x; cbn; [discriminate | discriminate | reflexivity]. Qed.

(** A string literal is never short of fuel and always takes its closing
    quote. *)
Lemma parseChars_cases s :
  parseChars s <> PFuel
  /\ forall cs r, parseChars s = POk cs r -> (length r < length s)%nat.
Proof.
  assert (H : forall n s, (length s <= n)%nat ->
            parseChars s <> PFuel
            /\ forall cs r, parseChars s = POk cs r -> (length r < length s)%nat).
  { clear s. intros n. induction n as [|n IH]; intros [|c s1] Hlen;
      try (split; [discriminate | intros cs r; discriminate]); cbn in Hlen; [lia|].
    cbn [parseChars].
    destruct (c =? 34)%N; [split; [discriminate | intros cs r [= <- <-]; cbn; lia]|].
    destruct (c =? 92)%N.
    - destruct s1 as [|e s2]; [split; [discriminate | intros cs r; discriminate]|].
      destruct (e =? 117)%N.
      + destruct s2 as [|h1 [|h2 [|h3 [|h4 s3]]]];
          try (split; [discriminate | intros cs r; discriminate]).
        destruct (hex4 h1 h2 h3 h4);
          [|split; [discriminate | intros cs r; discriminate]].
        destruct (IH s3) as (Hf & Hl); [cbn in Hlen; lia|]. split.
        * intros Hx. apply consChar_fuel in Hx. contradiction.
        * intros cs r Hx. apply consChar_POk in Hx as (cs' & _ & Hx).
          apply Hl in Hx. cbn. lia.
      + destruct (simpleEscape e);
          [|split; [discriminate | intros cs r; discriminate]].
        destruct (IH s2) as (Hf & Hl); [cbn in Hlen; lia|]. split.
        * intros Hx. apply consChar_fuel in Hx. contradiction.
        * intros cs r Hx. apply consChar_POk in Hx as (cs' & _ & Hx).
          apply Hl in Hx. cbn. lia.
    - destruct (c <? 32)%N; [split; [discriminate | intros cs r; discriminate]|].
      destruct (IH s1) as (Hf & Hl); [lia|]. split.
      + intros Hx. apply consChar_fuel in Hx. contradiction.
      + intros cs r Hx. apply consChar_POk in Hx as (cs' & _ & Hx).
        apply Hl in Hx. cbn. lia. }
  apply (H (length s)). lia.
Qed.

Lemma parseChars_length s cs r :
  parseChars s = POk cs r -> (length r < length s)%nat.
Proof. apply parseChars_cases. Qed.

Lemma parseChars_fuel s : parseChars s <> PFuel.
Proof. apply parseChars_cases. Qed.

Lemma spanDigits_length s ds r : spanDigits s = (ds, r) -> (length r <= length s)%nat.
Proof.
  revert ds r. induction s as [|c s IH]; intros ds r; cbn.
  - intros [= <- <-]. cbn. lia.
  - destruct (isDigit c).
    + destruct (spanDigits s) as [ds' r'] eqn:Hs. intros [= <- <-].
      specialize (IH _ _ eq_refl). lia.
    + intros [= <- <-]. cbn. lia.
Qed.

Lemma parseDigits1_length s ds r :
  parseDigits1 s = Some (ds, r) -> (length r <= length s)%nat.
Proof.
  unfold parseDigits1. destruct (spanDigits s) as [[|d ds'] r'] eqn:Hs; [discriminate|].
  intros [= <- <-]. eapply spanDigits_length. exact Hs.
Qed.

Lemma parseInt_length s i r : parseInt s = Some (i, r) -> (length r < length s)%nat.
Proof.
  unfold parseInt. destruct s as [|c s']; [discriminate|].
  destruct (c =? 45)%N.
  - destruct s' as [|d s2]; [discriminate|].
    destruct (d =? 48)%N; [intros [= <- <-]; cbn; lia|].
    destruct (isDigit d); [|discriminate].
    destruct (spanDigits s2) as [ds rest] eqn:Hs. intros [= <- <-].
    apply spanDigits_length in Hs. cbn. lia.
  - destruct (c =? 48)%N; [intros [= <- <-]; cbn; lia|].
    destruct (isDigit c); [|discriminate].
    destruct (spanDigits s') as [ds rest] eqn:Hs. intros [= <- <-].
    apply spanDigits_length in Hs. cbn. lia.
Qed.

Lemma parseFrac_length s f r : parseFrac s = Some (f, r) -> (length r <= length s)%nat.
Proof.
  unfold parseFrac. destruct s as [|c s1]; [intros [= <- <-]; lia|].
  destruct (c =? 46)%N; [|intros [= <- <-]; lia].
  destruct (parseDigits1 s1) as [[ds rest]|] eqn:Hd; [|discriminate].
  intros [= <- <-]. apply parseDigits1_length in Hd. cbn. lia.
Qed.

Lemma parseExp_length s e r : parseExp s = Some (e, r) -> (length r <= length s)%nat.
Proof.
  unfold parseExp. destruct s as [|c s1]; [intros [= <- <-]; lia|].
  destruct ((c =? 101) || (c =? 69))%N; [|intros [= <- <-]; lia].
  destruct s1 as [|d s2].
  - destruct (parseDigits1 []) as [[ds rest]|] eqn:Hd; [|discriminate].
    intros [= <- <-]. apply parseDigits1_length in Hd. cbn in *. lia.
  - destruct ((d =? 43) || (d =? 45))%N.
    + destruct (parseDigits1 s2) as [[ds rest]|] eqn:Hd; [|discriminate].
      intros [= <- <-]. apply parseDigits1_length in Hd. cbn. lia.
    + destruct (parseDigits1 (d :: s2)) as [[ds rest]|] eqn:Hd; [|discriminate].
      intros [= <- <-]. apply parseDigits1_length in Hd. cbn in *. lia.
Qed.

Lemma parseNumber_cases s :
  parseNumber s <> PFuel
  /\ forall v r, parseNumber s = POk v r -> (length r < length s)%nat.
Proof.
  unfold parseNumber.
  destruct (parseInt s) as [[i s1]|] eqn:Hi;
    [|split; [discriminate | intros v r; discriminate]].
  destruct (parseFrac s1) as [[f s2]|] eqn:Hf;
    [|split; [discriminate | intros v r; discriminate]].
  destruct (parseExp s2) as [[e s3]|] eqn:He;
    [|split; [discriminate | intros v r; discriminate]].
  split; [discriminate|]. intros v r [= <- <-].
  apply parseInt_length in Hi. apply parseFrac_length in Hf.
  apply parseExp_length in He. lia.
Qed.

Lemma startsWith_length s p : startsWith s p = true -> (length p <= length s)%nat.
Proof.
  revert s. induction p as [|c p IH]; intros [|d s]; cbn; intros H;
    try discriminate H; try lia.
  apply andb_true_iff in H as [_ H]. apply IH in H. lia.
Qed.

Lemma parseLiteral_cases lit v s :
  lit <> [] ->
  parseLiteral lit v s <> PFuel
  /\ forall v' r, parseLiteral lit v s = POk v' r -> (length r < length s)%nat.
Proof.
  intros Hlit. unfold parseLiteral.
  destruct (startsWith s lit) eqn:Hs; [|split; [discriminate | intros v' r; discriminate]].
  split; [discriminate|]. intros v' r [= <- <-].
  apply startsWith_length in Hs. rewrite length_drop.
  destruct lit; [contradiction|]. cbn in *. lia.
Qed.

(** Every successful parse takes at least one character. *)
Lemma parse_consumes fuel :
  (forall s v r, parseValue fuel s = POk v r -> (length r < length s)%nat)
  /\ (forall s acc v r, parseMembers fuel s acc = POk v r -> (length r < length s)%nat)
  /\ (forall s acc v r, parseElements fuel s acc = POk v r -> (length r < length s)%nat).
Proof.
  induction fuel as [|f (IHv & IHm & IHe)]; [repeat split; discriminate|].
  split; [|split].
  - intros s v r. cbn [parseValue].
    destruct (skipWs s) as [|c s1] eqn:Hs; [discriminate|]. apply skipWs_cons in Hs.
    destruct (c =? 123)%N.
    { destruct (skipWs s1) as [|d s2] eqn:Hs1; [discriminate|]. apply skipWs_cons in Hs1.
      destruct (d =? 125)%N; [intros [= <- <-]; lia|].
      intros H. apply IHm in H. cbn in H. lia. }
    destruct (c =? 91)%N.
    { destruct (skipWs s1) as [|d s2] eqn:Hs1; [discriminate|]. apply skipWs_cons in Hs1.
      destruct (d =? 93)%N; [intros [= <- <-]; lia|].
      intros H. apply IHe in H. cbn in H. lia. }
    destruct (c =? 34)%N.
    { destruct (parseChars s1) as [cs rest| |] eqn:Hc; try discriminate.
      intros [= <- <-]. apply parseChars_length in Hc. lia. }
    assert (Hlit : forall lit v0, lit <> [] -> parseLiteral lit v0 (c :: s1) = POk v r ->
                                  (length r < length s)%nat).
    { intros lit v0 Hlit H. apply (parseLiteral_cases lit v0 _ Hlit) in H. cbn in H. lia. }
    destruct (c =? 116)%N; [apply Hlit; discriminate|].
    destruct (c =? 102)%N; [apply Hlit; discriminate|].
    destruct (c =? 110)%N; [apply Hlit; discriminate|].
    intros H. apply parseNumber_cases in H. cbn in H. lia.
  - intros s acc v r. cbn [parseMembers].
    destruct (skipWs s) as [|c s1] eqn:Hs; [discriminate|]. apply skipWs_cons in Hs.
    destruct (c =? 34)%N; [|discriminate].
    destruct (parseChars s1) as [k s2| |] eqn:Hc; try discriminate.
    apply parseChars_length in Hc.
    destruct (skipWs s2) as [|d s3] eqn:Hs2; [discriminate|]. apply skipWs_cons in Hs2.
    destruct (d =? 58)%N; [|discriminate].
    destruct (parseValue f s3) as [v0 s4| |] eqn:Hv; try discriminate.
    apply IHv in Hv.
    destruct (skipWs s4) as [|e s5] eqn:Hs4; [discriminate|]. apply skipWs_cons in Hs4.
    destruct (e =? 44)%N; [intros H; apply IHm in H; lia|].
    destruct (e =? 125)%N; [|discriminate]. intros [= <- <-]. lia.
  - intros s acc v r. cbn [parseElements].
    destruct (parseValue f s) as [v0 s1| |] eqn:Hv; try discriminate.
    apply IHv in Hv.
    destruct (skipWs s1) as [|e s2] eqn:Hs1; [discriminate|]. apply skipWs_cons in Hs1.
    destruct (e =? 44)%N; [intros H; apply IHe in H; lia|].
    destruct (e =? 93)%N; [|discriminate]. intros [= <- <-]. lia.
Qed.

(** Fuel above twice the length of the text is never used up. *)
Lemma parse_fuel fuel :
  (forall s, (2 * length s < fuel)%nat -> parseValue fuel s <> PFuel)
  /\ (forall s acc, (2 * length s + 1 < fuel)%nat -> parseMembers fuel s acc <> PFuel)
  /\ (forall s acc, (2 * length s + 1 < fuel)%nat -> parseElements fuel s acc <> PFuel).
Proof.
  induction fuel as [|f (IHv & IHm & IHe)]; [repeat split; intros; lia|].
  destruct (parse_consumes f) as (Cv & Cm & Ce).
  split; [|split].
  - intros s Hf. cbn [parseValue].
    destruct (skipWs s) as [|c s1] eqn:Hs; [discriminate|]. apply skipWs_cons in Hs.
    destruct (c =? 123)%N.
    { destruct (skipWs s1) as [|d s2] eqn:Hs1; [discriminate|]. apply skipWs_cons in Hs1.
      destruct (d =? 125)%N; [discriminate|]. apply IHm. cbn. lia. }
    destruct (c =? 91)%N.
    { destruct (skipWs s1) as [|d s2] eqn:Hs1; [discriminate|]. apply skipWs_cons in Hs1.
      destruct (d =? 93)%N; [discriminate|]. apply IHe. cbn. lia. }
    destruct (c =? 34)%N.
    { destruct (parseChars s1) as [cs rest| |] eqn:Hc; try discriminate.
      exfalso. exact (parseChars_fuel _ Hc). }
    destruct (c =? 116)%N; [apply parseLiteral_cases; discriminate|].
    destruct (c =? 102)%N; [apply parseLiteral_cases; discriminate|].
    destruct (c =? 110)%N; [apply parseLiteral_cases; discriminate|].
    apply parseNumber_cases.
  - intros s acc Hf. cbn [parseMembers].
    destruct (skipWs s) as [|c s1] eqn:Hs; [discriminate|]. apply skipWs_cons in Hs.
    destruct (c =? 34)%N; [|discriminate].
    destruct (parseChars s1) as [k s2| |] eqn:Hc;
      [|discriminate|exfalso; exact (parseChars_fuel _ Hc)].
    apply parseChars_length in Hc.
    destruct (skipWs s2) as [|d s3] eqn:Hs2; [discriminate|]. apply skipWs_cons in Hs2.
    destruct (d =? 58)%N; [|discriminate].
    destruct (parseValue f s3) as [v0 s4| |] eqn:Hv;
      [|discriminate|exfalso; revert Hv; apply IHv; lia].
    apply Cv in Hv.
    destruct (skipWs s4) as [|e s5] eqn:Hs4; [discriminate|]. apply skipWs_cons in Hs4.
    destruct (e =? 44)%N; [apply IHm; lia|].
    destruct (e =? 125)%N; discriminate.
  - intros s acc Hf. cbn [parseElements].
    destruct (parseValue f s) as [v0 s1| |] eqn:Hv;
      [|discriminate|exfalso; revert Hv; apply IHv; lia].
    apply Cv in Hv.
    destruct (skipWs s1) as [|e s2] eqn:Hs1; [discriminate|]. apply skipWs_cons in Hs1.
    destruct (e =? 44)%N; [apply IHe; lia|].
    destruct (e =? 93)%N; discriminate.
Qed.

(** The fuel that [JSON_parse] gives is never used up. *)
Lemma parseValue_fuel text : parseValue (2 * length text + 1) text <> PFuel.
Proof. apply parse_fuel. lia. Qed.

(** A result that is not [PFuel] is the same with more fuel. *)
Lemma parse_more_fuel fuel :
  (forall s res, parseValue fuel s = res -> res <> PFuel ->
                 parseValue (Datatypes.S fuel) s = res)
  /\ (forall s acc res, parseMembers fuel s acc = res -> res <> PFuel ->
                        parseMembers (Datatypes.S fuel) s acc = res)
  /\ (forall s acc res, parseElements fuel s acc = res -> res <> PFuel ->
                        parseElements (Datatypes.S fuel) s acc = res).
Proof.
  induction fuel as [|f (IHv & IHm & IHe)];
    [repeat split; intros; subst; contradiction|].
  split; [|split].
  - intros s res. cbn [parseValue].
    destruct (skipWs s) as [|c s1]; [intros; assumption|].
    destruct (c =? 123)%N.
    { destruct (skipWs s1) as [|d s2]; [intros; assumption|].
      destruct (d =? 125)%N; [intros; assumption|]. apply IHm. }
    destruct (c =? 91)%N.
    { destruct (skipWs s1) as [|d s2]; [intros; assumption|].
      destruct (d =? 93)%N; [intros; assumption|]. apply IHe. }
    intros; assumption.
  - intros s acc res.
    change (parseMembers (Datatypes.S (Datatypes.S f)) s acc)
      with (match skipWs s with
            | c :: s1 =>
                if (c =? 34)%N then
                  match parseChars s1 with
                  | POk k s2 =>
                      match skipWs s2 with
                      | d :: s3 =>
                          if (d =? 58)%N then
                            match parseValue (Datatypes.S f) s3 with
                            | POk v s4 =>
                                match skipWs s4 with
                                | e :: s5 =>
                                    if (e =? 44)%N
                                    then parseMembers (Datatypes.S f) s5 (setProp k v acc)
                                    else if (e =? 125)%N
                                         then POk (JObj (setProp k v acc)) s5
                                         else PSyntaxError
                                | [] => PSyntaxError
                                end
                            | PSyntaxError => PSyntaxError
                            | PFuel => PFuel
                            end
                          else PSyntaxError
                      | [] => PSyntaxError
                      end
                  | PSyntaxError => PSyntaxError
                  | PFuel => PFuel
                  end
                else PSyntaxError
            | [] => PSyntaxError
            end).
    cbn [parseMembers].
    destruct (skipWs s) as [|c s1]; [intros; assumption|].
    destruct (c =? 34)%N; [|intros; assumption].
    destruct (parseChars s1) as [k s2| |]; [|intros; assumption|intros; assumption].
    destruct (skipWs s2) as [|d s3]; [intros; assumption|].
    destruct (d =? 58)%N; [|intros; assumption].
    destruct (parseValue f s3) as [v0 s4| |] eqn:Hv;
      [|rewrite (IHv _ _ Hv) by discriminate; intros; assumption
       |intros; subst; contradiction].
    rewrite (IHv _ _ Hv) by discriminate.
    destruct (skipWs s4) as [|e s5]; [intros; assumption|].
    destruct (e =? 44)%N; [apply IHm|]. intros; assumption.
  - intros s acc res.
    change (parseElements (Datatypes.S (Datatypes.S f)) s acc)
      with (match parseValue (Datatypes.S f) s with
            | POk v s1 =>
                match skipWs s1 with
                | e :: s2 =>
                    if (e =? 44)%N then parseElements (Datatypes.S f) s2 (acc ++ [v])
                    else if (e =? 93)%N then POk (JArr (acc ++ [v])) s2
                         else PSyntaxError
                | [] => PSyntaxError
                end
            | PSyntaxError => PSyntaxError
            | PFuel => PFuel
            end).
    cbn [parseElements].
    destruct (parseValue f s) as [v0 s1| |] eqn:Hv;
      [|rewrite (IHv _ _ Hv) by discriminate; intros; assumption
       |intros; subst; contradiction].
    rewrite (IHv _ _ Hv) by discriminate.
    destruct (skipWs s1) as [|e s2]; [intros; assumption|].
    destruct (e =? 44)%N; [apply IHe|]. intros; assumption.
Qed.

Lemma parseValue_more_fuel fuel fuel' s res :
  (fuel <= fuel')%nat -> parseValue fuel s = res -> res <> PFuel ->
  parseValue fuel' s = res.
Proof.
  intros Hle Hres Hne. induction Hle as [|fuel' _ IH]; [exact Hres|].
  apply parse_more_fuel; assumption.
Qed.

(** A parse that succeeds with some fuel and leaves only white space is
    the result of [JSON.parse]. *)
Lemma JSON_parse_with_fuel fuel text v rest :
  parseValue fuel text = POk v rest -> skipWs rest = [] ->
  JSON_parse text = Return v.
Proof.
  intros Hparse Hrest. unfold JSON_parse.
  pose proof (parseValue_fuel text) as Hfuel.
  set (F := (2 * length text + 1)%nat) in *.
  assert (Hbig : parseValue (Nat.max fuel F) text = POk v rest).
  { apply (parseValue_more_fuel fuel); [lia | exact Hparse | discriminate]. }
  assert (HF : parseValue (Nat.max fuel F) text = parseValue F text).
  { apply (parseValue_more_fuel F); [lia | reflexivity | exact Hfuel]. }
  rewrite <- HF, Hbig, Hrest. reflexivity.
Qed.

(** ** The export: [JSON.stringify(timeline, null, 2)] read back *)

Lemma skipWs_app_ws a x : allJsonWs a -> skipWs (a ++ x) = skipWs x.
Proof.
  intros Ha. induction Ha as [|c a Hc Ha IH]; [reflexivity|].
  cbn [app skipWs]. rewrite Hc. exact IH.
Qed.

Lemma allJsonWs_app a b : allJsonWs a -> allJsonWs b -> allJsonWs (a ++ b).
Proof. intros Ha Hb. apply Forall_app. split; assumption. Qed.

Lemma allJsonWs_newline a : allJsonWs a -> allJsonWs (10%N :: a).
Proof. intros Ha. constructor; [reflexivity | exact Ha]. Qed.

Lemma setProp_fresh k v acc :
  k ∉ map fst acc -> setProp k v acc = acc ++ [(k, v)].
Proof.
  induction acc as [|[k' v'] acc IH]; cbn; [reflexivity|].
  intros Hk. apply not_elem_of_cons in Hk as [Hne Hk].
  rewrite decide_False by congruence. rewrite IH by exact Hk. reflexivity.
Qed.

Lemma joinWith_cons sep p q ps :
  joinWith sep (p :: q :: ps) = p ++ sep ++ joinWith sep (q :: ps).
Proof. reflexivity. Qed.

(** A string value after white space. *)
Lemma parseValue_string fuel a s rest :
  allJsonWs a ->
  parseValue (Datatypes.S fuel) (a ++ QuoteJSONString s ++ rest) = POk (JStr s) rest.
Proof.
  intros Ha. cbn [parseValue]. rewrite skipWs_app_ws by exact Ha.
  unfold QuoteJSONString. list_norm. cbn [skipWs].
  replace (isJsonWs 34) with false by reflexivity.
  replace (34 =? 123)%N with false by reflexivity.
  replace (34 =? 91)%N with false by reflexivity.
  replace (34 =? 34)%N with true by reflexivity.
  rewrite parseChars_quoteChars. reflexivity.
Qed.

(** The members of an object with string values, up to its closing
    brace. *)
Lemma parseMembers_record props :
  forall acc fuel a ws1 ws2 rest,
    props <> [] ->
    allJsonWs a -> allJsonWs ws1 -> allJsonWs ws2 ->
    NoDup (map fst acc ++ map fst props) ->
    (length props < fuel)%nat ->
    parseMembers fuel
      (a ++ joinWith (str "," ++ ws1) (map memberText props) ++ ws2 ++ str "}" ++ rest) acc
    = POk (JObj (acc ++ stringProps props)) rest.
Proof.
  induction props as [|[k v] props IH]; intros acc fuel a ws1 ws2 rest Hne Ha H1 H2 Hdup Hfuel;
    [contradiction|].
  destruct fuel as [|fuel]; [cbn in Hfuel; lia|].
  assert (Hk : k ∉ map fst acc).
  { apply NoDup_app in Hdup as (_ & Hdisj & _). intros Hin.
    apply (Hdisj k Hin). cbn. left. }
  assert (Hstep : forall tail,
            parseMembers (Datatypes.S fuel) (a ++ memberText (k, v) ++ tail) acc =
            match skipWs tail with
            | e :: s5 =>
                if (e =? 44)%N then parseMembers fuel s5 (acc ++ [(k, JStr v)])
                else if (e =? 125)%N then POk (JObj (acc ++ [(k, JStr v)])) s5
                else PSyntaxError
            | [] => PSyntaxError
            end).
  { intros tail. cbn [parseMembers]. rewrite skipWs_app_ws by exact Ha.
    unfold memberText, QuoteJSONString. cbn [fst snd].
    change (str ": ") with [58%N; 32%N]. list_norm. cbn [skipWs].
    replace (isJsonWs 34) with false by reflexivity.
    replace (34 =? 34)%N with true by reflexivity.
    rewrite parseChars_quoteChars. cbn [skipWs].
    replace (isJsonWs 58) with false by reflexivity.
    replace (58 =? 58)%N with true by reflexivity.
    destruct fuel as [|fuel']; [cbn in Hfuel; lia|].
    pose proof (parseValue_string fuel' [32%N] v tail) as Hv.
    unfold QuoteJSONString in Hv. list_norm_in Hv.
    rewrite Hv by (constructor; [reflexivity | constructor]).
    rewrite setProp_fresh by exact Hk. reflexivity. }
  destruct props as [|kv' props].
  - cbn [map joinWith]. rewrite Hstep.
    rewrite skipWs_app_ws by exact H2.
    change (str "}") with [125%N]. cbn [app skipWs].
    replace (isJsonWs 125) with false by reflexivity.
    replace (125 =? 44)%N with false by reflexivity.
    replace (125 =? 125)%N with true by reflexivity.
    reflexivity.
  - cbn [map]. rewrite joinWith_cons. change (str ",") with [44%N].
    list_norm. rewrite Hstep. cbn [skipWs].
    replace (isJsonWs 44) with false by reflexivity.
    replace (44 =? 44)%N with true by reflexivity.
    change (memberText kv' :: map memberText props) with (map memberText (kv' :: props)).
    pose proof (IH (acc ++ [(k, JStr v)]) fuel ws1 ws1 ws2 rest) as IH'.
    change (str ",") with [44%N] in IH'. list_norm_in IH'.
    rewrite IH'.
    + reflexivity.
    + discriminate.
    + exact H1.
    + exact H1.
    + exact H2.
    + rewrite map_app, <- app_assoc. exact Hdup.
    + cbn [length] in Hfuel |- *. lia.
Qed.

(** The indented text of an object with string values. *)
Lemma serialize_record g gap indent props :
  serialize (g :: gap) indent (JObj (stringProps props)) =
  match props with
  | [] => str "{}"
  | _ :: _ =>
      str "{" ++ [10%N] ++ (indent ++ g :: gap)
        ++ joinWith (str "," ++ [10%N] ++ indent ++ g :: gap) (map memberText props)
        ++ [10%N] ++ indent ++ str "}"
  end.
Proof.
  destruct props as [|kv props]; [reflexivity|].
  cbn [serialize stringProps map]. rewrite map_map. reflexivity.
Qed.

Lemma joinWith_head {A : Type} sep (c : N) (f : A -> jsstring) kv props :
  (forall kv, exists x, f kv = c :: x) ->
  exists x, joinWith sep (map f (kv :: props)) = c :: x.
Proof.
  intros Hf. destruct (Hf kv) as [x Hx].
  destruct props as [|kv' props]; cbn [map]; [cbn; eauto|].
  rewrite joinWith_cons, Hx. cbn [app]. eauto.
Qed.

Lemma memberText_head kv : exists x, memberText kv = 34%N :: x.
Proof. unfold memberText, QuoteJSONString. cbn [app]. eauto. Qed.

(** An object with string values, after white space. *)
Lemma parseValue_record fuel a g gap indent props rest :
  allJsonWs a -> allJsonWs (g :: gap) -> allJsonWs indent ->
  NoDup (map fst props) ->
  (length props + 1 < fuel)%nat ->
  parseValue fuel (a ++ serialize (g :: gap) indent (JObj (stringProps props)) ++ rest)
  = POk (JObj (stringProps props)) rest.
Proof.
  intros Ha Hgap Hind Hdup Hfuel. rewrite serialize_record.
  destruct fuel as [|fuel]; [lia|].
  cbn [parseValue]. rewrite skipWs_app_ws by exact Ha.
  destruct props as [|kv props].
  - change (str "{}") with [123%N; 125%N]. cbn [app skipWs].
    replace (isJsonWs 123) with false by reflexivity.
    replace (123 =? 123)%N with true by reflexivity.
    cbn [skipWs].
    replace (isJsonWs 125) with false by reflexivity.
    replace (125 =? 125)%N with true by reflexivity.
    reflexivity.
  - change (str "{") with [123%N]. cbn [app skipWs].
    replace (isJsonWs 123) with false by reflexivity.
    replace (123 =? 123)%N with true by reflexivity.
    assert (Hws : allJsonWs (10%N :: indent ++ g :: gap)).
    { apply allJsonWs_newline, allJsonWs_app; assumption. }
    match goal with |- context [skipWs ?l] =>
      replace l with
        ((10%N :: indent ++ g :: gap)
           ++ joinWith (str "," ++ 10%N :: indent ++ g :: gap)
                       (map memberText (kv :: props))
           ++ 10%N :: indent ++ str "}" ++ rest)
        by (list_norm; reflexivity)
    end.
    rewrite (skipWs_app_ws _ _ Hws).
    destruct (joinWith_head (str "," ++ 10%N :: indent ++ g :: gap) 34%N memberText
                kv props memberText_head) as [x Hx].
    rewrite Hx. cbn [app skipWs].
    replace (isJsonWs 34) with false by reflexivity.
    replace (34 =? 125)%N with false by reflexivity.
    change (34%N :: x ++ 10%N :: indent ++ str "}" ++ rest)
      with ((34%N :: x) ++ 10%N :: indent ++ str "}" ++ rest).
    rewrite <- Hx.
    apply (parseMembers_record (kv :: props) [] fuel []
             (10%N :: indent ++ g :: gap) (10%N :: indent) rest).
    + discriminate.
    + constructor.
    + exact Hws.
    + apply allJsonWs_newline. exact Hind.
    + exact Hdup.
    + cbn [length] in Hfuel |- *. lia.
Qed.

Lemma recordText_head g gap indent props : exists x, recordText g gap indent props = 123%N :: x.
Proof.
  unfold recordText. rewrite serialize_record.
  destruct props; [change (str "{}") with [123%N; 125%N] | change (str "{") with [123%N]];
    cbn [app]; eauto.
Qed.

(** The elements of an array of such objects, up to its closing bracket. *)
Lemma parseElements_records g gap indent entries :
  forall acc fuel a ws1 ws2 rest,
    entries <> [] ->
    allJsonWs a -> allJsonWs ws1 -> allJsonWs ws2 ->
    allJsonWs (g :: gap) -> allJsonWs indent ->
    Forall (fun props => NoDup (map fst props)
                         /\ (length props + 1 + length entries < fuel)%nat) entries ->
    parseElements fuel
      (a ++ joinWith (str "," ++ ws1) (map (recordText g gap indent) entries)
         ++ ws2 ++ str "]" ++ rest) acc
    = POk (JArr (acc ++ map (fun props => JObj (stringProps props)) entries)) rest.
Proof.
  induction entries as [|props entries IH];
    intros acc fuel a ws1 ws2 rest Hne Ha H1 H2 Hgap Hind Hall; [contradiction|].
  destruct fuel as [|fuel];
    [apply Forall_inv in Hall as [_ Hf]; lia|].
  assert (Hstep : forall tail,
            parseElements (Datatypes.S fuel) (a ++ recordText g gap indent props ++ tail) acc =
            match skipWs tail with
            | e :: s2 =>
                if (e =? 44)%N
                then parseElements fuel s2 (acc ++ [JObj (stringProps props)])
                else if (e =? 93)%N
                     then POk (JArr (acc ++ [JObj (stringProps props)])) s2
                     else PSyntaxError
            | [] => PSyntaxError
            end).
  { intros tail. cbn [parseElements]. unfold recordText.
    rewrite parseValue_record; try assumption; [reflexivity| |].
    - apply Forall_inv in Hall as [Hd _]. exact Hd.
    - apply Forall_inv in Hall as [_ Hf]. cbn [length] in Hf. lia. }
  destruct entries as [|props' entries].
  - cbn [map joinWith]. rewrite Hstep.
    rewrite skipWs_app_ws by exact H2.
    change (str "]") with [93%N]. cbn [app skipWs].
    replace (isJsonWs 93) with false by reflexivity.
    replace (93 =? 44)%N with false by reflexivity.
    replace (93 =? 93)%N with true by reflexivity.
    reflexivity.
  - cbn [map]. rewrite joinWith_cons. change (str ",") with [44%N].
    list_norm. rewrite Hstep. cbn [skipWs].
    replace (isJsonWs 44) with false by reflexivity.
    replace (44 =? 44)%N with true by reflexivity.
    change (recordText g gap indent props' :: map (recordText g gap indent) entries)
      with (map (recordText g gap indent) (props' :: entries)).
    pose proof (IH (acc ++ [JObj (stringProps props)]) fuel ws1 ws1 ws2 rest) as IH'.
    change (str ",") with [44%N] in IH'. list_norm_in IH'.
    rewrite IH'; try assumption.
    + reflexivity.
    + discriminate.
    + apply Forall_inv_tail in Hall. eapply Forall_impl; [exact Hall|].
      intros ps [Hd Hf]. split; [exact Hd|]. cbn [length] in Hf |- *. lia.
Qed.

Lemma stringRecords_entries timeline :
  Forall isStringRecord timeline ->
  exists entries,
    timeline = map (fun props => JObj (stringProps props)) entries
    /\ Forall (fun props => NoDup (map fst props)) entries.
Proof.
  intros H. induction H as [|v timeline (props & -> & Hdup) _ (entries & -> & Hall)].
  - exists []. split; [reflexivity | constructor].
  - exists (props :: entries). split; [reflexivity | constructor; assumption].
Qed.

Lemma serialize_array g gap indent items :
  serialize (g :: gap) indent (JArr items) =
  match items with
  | [] => str "[]"
  | _ :: _ =>
      str "[" ++ [10%N] ++ (indent ++ g :: gap)
        ++ joinWith (str "," ++ [10%N] ++ indent ++ g :: gap)
                    (map (serialize (g :: gap) (indent ++ g :: gap)) items)
        ++ [10%N] ++ indent ++ str "]"
  end.
Proof. destruct items; reflexivity. Qed.

(** The indented text of a list of such objects, read back. *)
Lemma JSON_parse_stringify_records entries :
  Forall (fun props => NoDup (map fst props)) entries ->
  JSON_parse (JSON_stringify (JArr (map (fun props => JObj (stringProps props)) entries)) 2)
  = Return (JArr (map (fun props => JObj (stringProps props)) entries)).
Proof.
  intros Hdup.
  set (fuel := (sum_list_with length entries + length entries + 3)%nat).
  apply (JSON_parse_with_fuel (Datatypes.S fuel) _ _ []); [|reflexivity].
  unfold JSON_stringify. change (repeat 32%N (Nat.min 10 2)) with [32%N; 32%N].
  rewrite serialize_array.
  destruct entries as [|props entries]; [reflexivity|].
  rewrite map_map.
  change (map (fun x => serialize [32%N; 32%N] ([] ++ [32%N; 32%N]) (JObj (stringProps x)))
              (props :: entries))
    with (map (recordText 32 [32%N] [32%N; 32%N]) (props :: entries)).
  cbn [map]. change (str "[") with [91%N]. change (str "]") with [93%N].
  change (str ",") with [44%N].
  cbn [app parseValue skipWs].
  replace (isJsonWs 91) with false by reflexivity.
  replace (91 =? 123)%N with false by reflexivity.
  replace (91 =? 91)%N with true by reflexivity.
  cbn [skipWs].
  replace (isJsonWs 10) with true by reflexivity.
  replace (isJsonWs 32) with true by reflexivity.
  change (recordText 32 [32%N] [32%N; 32%N] props
            :: map (recordText 32 [32%N] [32%N; 32%N]) entries)
    with (map (recordText 32 [32%N] [32%N; 32%N]) (props :: entries)).
  destruct (joinWith_head [44%N; 10%N; 32%N; 32%N] 123%N
              (recordText 32 [32%N] [32%N; 32%N]) props entries
              (recordText_head 32 [32%N] [32%N; 32%N])) as [x Hx].
  rewrite Hx. cbn [app skipWs].
  replace (isJsonWs 123) with false by reflexivity.
  replace (123 =? 93)%N with false by reflexivity.
  change (123%N :: x ++ [10%N; 93%N]) with ((123%N :: x) ++ [10%N; 93%N]).
  rewrite <- Hx.
  apply (parseElements_records 32 [32%N] [32%N; 32%N] (props :: entries) [] fuel []
           [10%N; 32%N; 32%N] [10%N] []).
  - discriminate.
  - constructor.
  - repeat constructor.
  - repeat constructor.
  - repeat constructor.
  - repeat constructor.
  - rewrite Forall_forall in Hdup |- *. intros ps Hps. split; [apply Hdup; exact Hps|].
    pose proof (sum_list_with_in ps length (props :: entries) Hps). unfold fuel. lia.
Qed.

(** C9: for a timeline whose entries are objects with string-valued
    properties, as the [TimelineEntry] interface declares them, the text
    that [handleDownload] puts in the blob, [JSON.stringify(timeline,
    null, 2)], decodes with [JSON.parse] to the same timeline (an empty
    timeline is not exported). *)
Theorem C9_export_round_trip :
  forall (file : option File) (now : jsstring) (timeline : list json),
    Forall isStringRecord timeline ->
    JSON_parse (JSON_stringify (JArr timeline) 2) = Return (JArr timeline)
    /\ match handleDownload file now timeline with
       | Some download =>
           download_text download = JSON_stringify (JArr timeline) 2
           /\ JSON_parse (download_text download) = Return (JArr timeline)
       | None => timeline = []
       end.
Proof.
  intros file now timeline Hrec.
  destruct (stringRecords_entries timeline Hrec) as (entries & -> & Hdup).
  pose proof (JSON_parse_stringify_records entries Hdup) as Hround.
  split; [exact Hround|].
  unfold handleDownload.
  destruct (map (fun props => JObj (stringProps props)) entries) eqn:Hmap;
    [reflexivity|].
  cbn [download_text]. split; [reflexivity | exact Hround].
Qed.

(** Every entry of the declared type is such an object. *)
Lemma entryObject_isStringRecord (e : TimelineEntry) : isStringRecord (entryObject e).
Proof.
  exists [(str "filename", filename e); (str "tc_in", tc_in e); (str "tc_out", tc_out e);
          (str "speaker", speaker e); (str "dialogue", dialogue e)].
  split; [reflexivity|].
  apply (bool_decide_unpack _). vm_compute. exact I.
Qed.

Lemma TimelineEntry_round_trip (entries : list TimelineEntry) :
  JSON_parse (JSON_stringify (JArr (map entryObject entries)) 2)
  = Return (JArr (map entryObject entries)).
Proof.
  assert (Hrec : Forall isStringRecord (map entryObject entries)).
  { apply Forall_fmap, Forall_forall. intros e _. apply entryObject_isStringRecord. }
  destruct (stringRecords_entries _ Hrec) as (records & -> & Hdup).
  apply JSON_parse_stringify_records. exact Hdup.
Qed.

Lemma sampleTimeline_records : Forall isStringRecord sampleTimeline.
Proof.
  constructor; [|constructor].
  exists [(str "tc_in", str "00:00:00:00"); (str "tc_out", str "00:00:01:00");
          (str "speaker", str "Speaker 1"); (str "dialogue", str "hi");
          (str "filename", str "clip.mp4")].
  split; [reflexivity|].
  apply (bool_decide_unpack _). vm_compute. exact I.
Qed.

(** C9 at the timeline that the handler returns for the parser example. *)
Lemma C9_export_round_trip_witness :
  Forall isStringRecord sampleTimeline
  /\ JSON_parse (JSON_stringify (JArr sampleTimeline) 2) = Return (JArr sampleTimeline)
  /\ match handleDownload (Some sampleFile) (str "2025-06-10T12:00:00.000Z") sampleTimeline with
     | Some download =>
         download_text download = JSON_stringify (JArr sampleTimeline) 2
         /\ JSON_parse (download_text download) = Return (JArr sampleTimeline)
     | None => sampleTimeline = []
     end.
Proof.
  split; [exact sampleTimeline_records|].
  apply (C9_export_round_trip (Some sampleFile) (str "2025-06-10T12:00:00.000Z")
           sampleTimeline sampleTimeline_records).
Defined.

Example download_name_sample :
  option_map download_name
    (handleDownload (Some sampleFile) (str "2025-06-10T12:00:00.000Z") sampleTimeline)
  = Some (str "ASR_clip_2025-06-10T12-00-00-000Z.json").
Proof. vm_compute. reflexivity. Qed.

(** * Further properties *)

(** ** Every run of the retry policy *)

Section RetryRuns.
Context {S T : Type} (fn : S -> outcome T * S).

Lemma settles_or_rateLimited (o : outcome T) : settles o \/ rateLimited o.
Proof.
  destruct o as [v|e]; [left; exact I|].
  destruct (isRateLimit e) eqn:He; [right; exists e; auto | left; exact He].
Qed.

Lemma settles_not_rateLimited (o : outcome T) : settles o -> rateLimited o -> False.
Proof. intros Hs (e & -> & He). cbn in Hs. congruence. Qed.

(** A run of the loop is fixed by the number [j] of rate-limited calls
    it goes through: the calls before the [j]-th are rate limited, the
    loop waits after each of them, and the outcome of the [j]-th call is
    the result; the loop stops there because that outcome settles or
    because the retries are used up. *)
Lemma retryLoop_run maxRetries initialDelay :
  forall k retries s tr,
    k = Z.to_nat (maxRetries - retries) ->
    exists j,
      (j <= k)%nat
      /\ retryLoop fn maxRetries initialDelay retries s tr =
           (fst (fn (stateAfter fn j s)), snd (fn (stateAfter fn j s)),
            tr ++ backoffTrace initialDelay retries j)
      /\ (forall i, (i < j)%nat -> rateLimited (fst (fn (stateAfter fn i s))))
      /\ ((j < k)%nat -> settles (fst (fn (stateAfter fn j s)))).
Proof.
  intros k. induction k as [|k IH]; intros retries s tr Hk.
  - exists 0%nat. rewrite retryLoop_step. change (stateAfter fn 0 s) with s.
    split; [lia|]. split; [|split; intros; lia].
    destruct (fn s) as [[v|e] s']; [reflexivity|].
    unfold giveUp. replace (retries >=? maxRetries)%Z with true by lia. reflexivity.
  - rewrite retryLoop_step.
    destruct (fn s) as [[v|e] s'] eqn:Hfn.
    + exists 0%nat. change (stateAfter fn 0 s) with s. rewrite Hfn.
      split; [lia|]. split; [reflexivity|]. split; [intros; lia | intros; exact I].
    + unfold giveUp. replace (retries >=? maxRetries)%Z with false by lia.
      destruct (isRateLimit e) eqn:He; cbn [orb negb].
      * cbv zeta.
        destruct (IH (retries + 1)%Z s'
                    (tr ++ [EvInvoke;
                            EvConsole (LogRateLimited (initialDelay * 2 ^ retries));
                            EvWait (initialDelay * 2 ^ retries)]))
          as (j & Hj & Hrun & Hbefore & Hstop); [lia|].
        exists (Datatypes.S j). rewrite stateAfter_succ, Hfn. cbn [snd].
        split; [lia|]. split; [|split].
        -- rewrite Hrun. cbn [backoffTrace]. rewrite <- app_assoc. reflexivity.
        -- intros [|i] Hi.
           ++ change (stateAfter fn 0 s) with s. rewrite Hfn. exists e. auto.
           ++ rewrite stateAfter_succ, Hfn. apply Hbefore. lia.
        -- intros Hlt. apply Hstop. lia.
      * exists 0%nat. change (stateAfter fn 0 s) with s. rewrite Hfn.
        split; [lia|]. split; [reflexivity|]. split; [intros; lia | intros; exact He].
Qed.

(** When the first [k] calls are rate limited, [k] is within the bound
    and the next outcome settles or the retries are used up, the run goes
    through exactly [k] rate-limited calls. *)
Lemma retryLoop_run_settles maxRetries initialDelay k s :
  (forall i, (i < k)%nat -> rateLimited (fst (fn (stateAfter fn i s)))) ->
  settles (fst (fn (stateAfter fn k s))) \/ Z.of_nat k = maxRetries ->
  (Z.of_nat k <= maxRetries)%Z ->
  retryWithBackoff fn maxRetries initialDelay s =
    (fst (fn (stateAfter fn k s)), snd (fn (stateAfter fn k s)),
     backoffTrace initialDelay 0 k).
Proof.
  intros Hbefore Hsettles Hbound. unfold retryWithBackoff.
  destruct (retryLoop_run maxRetries initialDelay (Z.to_nat (maxRetries - 0)) 0%Z s []
              eq_refl) as (j & Hj & Hrun & Hrl & Hstop).
  assert (j = k) as ->; [|exact Hrun].
  destruct (Nat.lt_trichotomy j k) as [Hlt|[Heq|Hgt]]; [exfalso|exact Heq|exfalso].
  - apply (settles_not_rateLimited (fst (fn (stateAfter fn j s)))).
    + apply Hstop. lia.
    + apply Hbefore. exact Hlt.
  - destruct Hsettles as [Hsettles|Hmax]; [|lia].
    apply (settles_not_rateLimited (fst (fn (stateAfter fn k s)))).
    + exact Hsettles.
    + apply Hrl. exact Hgt.
Qed.

Lemma totalWait_app tr1 tr2 : totalWait (tr1 ++ tr2) = (totalWait tr1 + totalWait tr2)%Z.
Proof.
  unfold totalWait. rewrite waits_app.
  induction (waits tr1) as [|d ds IH]; cbn; [reflexivity|]. rewrite IH. lia.
Qed.

(** The waits of a run add up to a geometric sum. *)
Lemma totalWait_backoffTrace initialDelay retries k :
  (0 <= retries)%Z ->
  totalWait (backoffTrace initialDelay retries k) =
  (initialDelay * 2 ^ retries * (2 ^ Z.of_nat k - 1))%Z.
Proof.
  revert retries. induction k as [|k IH]; intros retries Hr.
  - cbn. lia.
  - cbn [backoffTrace]. rewrite totalWait_app, IH by lia.
    change (totalWait [EvInvoke; EvConsole (LogRateLimited (initialDelay * 2 ^ retries));
                       EvWait (initialDelay * 2 ^ retries)])
      with (initialDelay * 2 ^ retries + 0)%Z.
    rewrite Nat2Z.inj_succ, !Z.pow_succ_r by lia.
    rewrite Z.pow_add_r by lia. lia.
Qed.

End RetryRuns.


(** X2: when the first [k] calls of the operation are rate limited, with
    [k] at most [maxRetries], and the next call returns a value,
    [retryWithBackoff] returns this value after [k + 1] calls and [k]
    waits. *)
Theorem retryWithBackoff_returns_after_rate_limits :
  forall {S T : Type} (fn : S -> outcome T * S) (maxRetries initialDelay : Z)
         (s : S) (k : nat) (v : T),
    (forall i, (i < k)%nat -> rateLimited (fst (fn (stateAfter fn i s)))) ->
    fst (fn (stateAfter fn k s)) = Return v ->
    (Z.of_nat k <= maxRetries)%Z ->
    retryWithBackoff fn maxRetries initialDelay s =
      (Return v, snd (fn (stateAfter fn k s)), backoffTrace initialDelay 0 k).
Proof.
  intros S T fn maxRetries initialDelay s k v Hbefore Hv Hbound.
  rewrite (retryLoop_run_settles fn maxRetries initialDelay k s Hbefore); [|left; rewrite Hv; exact I|exact Hbound].
  rewrite Hv. reflexivity.
Qed.

(** X2 at the scenario of two rate limits and the default parameters. *)
Lemma retryWithBackoff_returns_after_rate_limits_witness :
  (forall i, (i < 2)%nat -> rateLimited (fst (failsTwice (stateAfter failsTwice i 0%nat))))
  /\ fst (failsTwice (stateAfter failsTwice 2 0%nat)) = Return (str "transcript")
  /\ (Z.of_nat 2 <= 3)%Z
  /\ retryWithBackoff failsTwice 3 1000 0%nat =
       (Return (str "transcript"), snd (failsTwice (stateAfter failsTwice 2 0%nat)),
        backoffTrace 1000 0 2).
Proof.
  assert (H1 : forall i, (i < 2)%nat ->
                         rateLimited (fst (failsTwice (stateAfter failsTwice i 0%nat)))).
  { intros [|[|i]] Hi; [| |lia]; eexists; (split; [reflexivity | vm_compute; reflexivity]). }
  assert (H2 : (Z.of_nat 2 <= 3)%Z) by lia.
  split; [exact H1|]. split; [reflexivity|]. split; [exact H2|].
  exact (retryWithBackoff_returns_after_rate_limits failsTwice 3%Z 1000%Z 0%nat 2%nat
           (str "transcript") H1 eq_refl H2).
Defined.

(** X3: when the first [k] calls of the operation are rate limited, with
    [k] at most [maxRetries], and the next call fails with a failure that
    is not a rate-limit failure, [retryWithBackoff] throws this failure
    at once: [k + 1] calls, [k] waits, no further attempt. *)
Theorem retryWithBackoff_stops_at_other_failure :
  forall {S T : Type} (fn : S -> outcome T * S) (maxRetries initialDelay : Z)
         (s : S) (k : nat) (e : thrown),
    (forall i, (i < k)%nat -> rateLimited (fst (fn (stateAfter fn i s)))) ->
    fst (fn (stateAfter fn k s)) = Throw e ->
    isRateLimit e = false ->
    (Z.of_nat k <= maxRetries)%Z ->
    retryWithBackoff fn maxRetries initialDelay s =
      (Throw e, snd (fn (stateAfter fn k s)), backoffTrace initialDelay 0 k).
Proof.
  intros S T fn maxRetries initialDelay s k e Hbefore He Hrl Hbound.
  rewrite (retryLoop_run_settles fn maxRetries initialDelay k s Hbefore);
    [|left; rewrite He; exact Hrl|exact Hbound].
  rewrite He. reflexivity.
Qed.

(** X3 at an operation that is rate limited once and then answers 400. *)
Lemma retryWithBackoff_stops_at_other_failure_witness :
  (forall i, (i < 1)%nat -> rateLimited (fst (failsForGood (stateAfter failsForGood i 0%nat))))
  /\ fst (failsForGood (stateAfter failsForGood 1 0%nat)) =
       Throw (ErrorObject (Some (str "[400 Bad Request] unsupported MIME type")))
  /\ isRateLimit (ErrorObject (Some (str "[400 Bad Request] unsupported MIME type"))) = false
  /\ (Z.of_nat 1 <= 3)%Z
  /\ retryWithBackoff failsForGood 3 1000 0%nat =
       (Throw (ErrorObject (Some (str "[400 Bad Request] unsupported MIME type"))),
        snd (failsForGood (stateAfter failsForGood 1 0%nat)),
        backoffTrace 1000 0 1).
Proof.
  assert (H1 : forall i, (i < 1)%nat ->
                         rateLimited (fst (failsForGood (stateAfter failsForGood i 0%nat)))).
  { intros [|i] Hi; [|lia]. eexists. split; [reflexivity | vm_compute; reflexivity]. }
  assert (H2 : isRateLimit (ErrorObject (Some (str "[400 Bad Request] unsupported MIME type")))
               = false) by (vm_compute; reflexivity).
  assert (H3 : (Z.of_nat 1 <= 3)%Z) by lia.
  split; [exact H1|]. split; [reflexivity|]. split; [exact H2|]. split; [exact H3|].
  exact (retryWithBackoff_stops_at_other_failure failsForGood 3%Z 1000%Z 0%nat 1%nat
           _ H1 eq_refl H2 H3).
Defined.

(** X4: whatever the operation does, the waits of [retryWithBackoff] add
    up to at most [initialDelay * (2^maxRetries - 1)] milliseconds (7 s
    at the defaults); an operation that is rate limited at every call
    reaches this bound. *)
Theorem retryWithBackoff_total_wait :
  forall {S T : Type} (fn : S -> outcome T * S) (maxRetries initialDelay : Z) (s : S),
    (0 <= maxRetries)%Z -> (0 <= initialDelay)%Z ->
    (totalWait (snd (retryWithBackoff fn maxRetries initialDelay s))
     <= initialDelay * (2 ^ maxRetries - 1))%Z
    /\ (alwaysRateLimited fn ->
        totalWait (snd (retryWithBackoff fn maxRetries initialDelay s))
        = (initialDelay * (2 ^ maxRetries - 1))%Z).
Proof.
  intros S T fn maxRetries initialDelay s Hm Hd. split.
  - destruct (retryLoop_run fn maxRetries initialDelay (Z.to_nat (maxRetries - 0)) 0%Z s []
                eq_refl) as (j & Hj & Hrun & _).
    unfold retryWithBackoff. rewrite Hrun. cbn [snd app].
    rewrite totalWait_backoffTrace by lia.
    assert (2 ^ Z.of_nat j <= 2 ^ maxRetries)%Z by (apply Z.pow_le_mono_r; lia).
    nia.
  - intros Hrl.
    destruct (retryLoop_alwaysRateLimited fn maxRetries initialDelay Hrl
                (Z.to_nat maxRetries) 0%Z s []) as (e & s' & Hloop & _); [f_equal; lia|].
    unfold retryWithBackoff. rewrite Hloop. cbn [snd app].
    rewrite totalWait_backoffTrace by lia. rewrite Z2Nat.id by lia. lia.
Qed.

(** X4 at the default parameters: 7000 ms. *)
Lemma retryWithBackoff_total_wait_witness :
  (0 <= 3)%Z /\ (0 <= 1000)%Z
  /\ (totalWait (snd (retryWithBackoff always429 3 1000 0%nat)) <= 1000 * (2 ^ 3 - 1))%Z
  /\ (alwaysRateLimited always429 ->
      totalWait (snd (retryWithBackoff always429 3 1000 0%nat)) = (1000 * (2 ^ 3 - 1))%Z).
Proof.
  assert (H1 : (0 <= 3)%Z) by lia. assert (H2 : (0 <= 1000)%Z) by lia.
  split; [exact H1|]. split; [exact H2|].
  exact (retryWithBackoff_total_wait always429 3%Z 1000%Z 0%nat H1 H2).
Defined.

(** ** The footprint of the handler *)

Lemma stateAfter_callModel env k w :
  stateAfter (callModel env) k w =
  {| files := files w; dirs := dirs w; calls := calls w + k |}.
Proof.
  revert w. induction k as [|k IH]; intros w.
  - change (stateAfter (callModel env) 0 w) with w. destruct w; cbn. f_equal. lia.
  - rewrite stateAfter_succ, IH. cbn. f_equal. lia.
Qed.

(** The retry loop around the model service: some number [k] of
    rate-limited calls, at most three, then the call whose outcome is
    handed on; the files are left alone. *)
Lemma awaitRetry_callModel_run env w tr :
  exists k,
    (k <= 3)%nat
    /\ (forall i, (i < k)%nat -> rateLimited (generateContent env (calls w + i)))
    /\ ((k < 3)%nat -> settles (generateContent env (calls w + k)))
    /\ awaitRetry (callModel env) w tr =
         (match generateContent env (calls w + k) with
          | Return v => Normal v
          | Throw e => Abrupt e
          end,
          {| files := files w; dirs := dirs w; calls := calls w + Datatypes.S k |},
          tr ++ backoffTrace 1000 0 k).
Proof.
  destruct (retryLoop_run (callModel env) 3 1000 (Z.to_nat (3 - 0)) 0%Z w [] eq_refl)
    as (k & Hk & Hrun & Hbefore & Hstop).
  exists k. split; [exact Hk|].
  assert (Hfst : forall i, fst (callModel env (stateAfter (callModel env) i w))
                           = generateContent env (calls w + i)).
  { intros i. rewrite stateAfter_callModel. reflexivity. }
  split; [intros i Hi; rewrite <- Hfst; apply Hbefore; exact Hi|].
  split; [intros Hlt; rewrite <- Hfst; apply Hstop; exact Hlt|].
  unfold awaitRetry, retryWithBackoff. rewrite Hrun, Hfst.
  rewrite stateAfter_callModel. cbn [snd callModel files dirs calls app].
  replace (Datatypes.S (calls w + k)) with (calls w + Datatypes.S k)%nat by lia.
  destruct (generateContent env (calls w + k)); reflexivity.
Qed.

(** The same loop when the outcomes of the model service are known. *)
Lemma awaitRetry_callModel_after env w tr k :
  (forall i, (i < k)%nat -> rateLimited (generateContent env (calls w + i))) ->
  settles (generateContent env (calls w + k)) \/ k = 3%nat ->
  (k <= 3)%nat ->
  awaitRetry (callModel env) w tr =
    (match generateContent env (calls w + k) with
     | Return v => Normal v
     | Throw e => Abrupt e
     end,
     {| files := files w; dirs := dirs w; calls := calls w + Datatypes.S k |},
     tr ++ backoffTrace 1000 0 k).
Proof.
  intros Hbefore Hstop Hk.
  assert (Hfst : forall i, fst (callModel env (stateAfter (callModel env) i w))
                           = generateContent env (calls w + i)).
  { intros i. rewrite stateAfter_callModel. reflexivity. }
  unfold awaitRetry.
  rewrite (retryLoop_run_settles (callModel env) 3 1000 k w).
  - rewrite Hfst, stateAfter_callModel. cbn [snd callModel files dirs calls].
    replace (Datatypes.S (calls w + k)) with (calls w + Datatypes.S k)%nat by lia.
    destruct (generateContent env (calls w + k)); reflexivity.
  - intros i Hi. rewrite Hfst. apply Hbefore. exact Hi.
  - rewrite Hfst. destruct Hstop as [Hs| ->]; [left; exact Hs | right; reflexivity].
  - lia.
Qed.

Lemma videoOf_Some request file :
  videoOf request = Some file ->
  exists formData,
    request_formData request = Return formData
    /\ FormData_get (str "video") formData = Some (FileEntry file).
Proof.
  unfold videoOf. destruct (request_formData request) as [formData|e]; [|discriminate].
  destruct (FormData_get (str "video") formData) as [[f|s]|] eqn:Hget; try discriminate.
  intros [= ->]. eauto.
Qed.

(** The transcription stage of a request that carries a file, on a
    platform whose [mkdir] and [writeFile] succeed, when the outcomes of
    the model service are known. *)
Lemma POST_transcribe_file_after env request w file k :
  videoOf request = Some file ->
  uploadDirExists env w = true \/ mkdir_error env = None ->
  writeFile_error env = None ->
  (forall i, (i < k)%nat -> rateLimited (generateContent env (calls w + i))) ->
  settles (generateContent env (calls w + k)) \/ k = 3%nat ->
  (k <= 3)%nat ->
  POST_transcribe env request w [] =
    (replyOf file (scratchPath env file) (generateContent env (calls w + k)),
     written env file (Datatypes.S k) w,
     prepareTrace env w ++ [EvWriteFile (scratchPath env file)] ++ backoffTrace 1000 0 k).
Proof.
  intros Hvideo Hmkdir Hwrite Hbefore Hstop Hk.
  destruct (videoOf_Some _ _ Hvideo) as (formData & Hform & Hget).
  unfold POST_transcribe. rewrite Hform. run_step. rewrite Hget. run_step.
  unfold existsSync. fold (uploadDir env). fold (uploadDirExists env w).
  fold (scratchPath env file).
  unfold written, prepared, prepareTrace, replyOf.
  assert (Hretry : forall w1 tr1, calls w1 = calls w ->
            awaitRetry (callModel env) w1 tr1 =
            (match generateContent env (calls w + k) with
             | Return v => Normal v
             | Throw e => Abrupt e
             end,
             {| files := files w1; dirs := dirs w1; calls := calls w + Datatypes.S k |},
             tr1 ++ backoffTrace 1000 0 k)).
  { intros w1 tr1 Hcalls.
    rewrite (awaitRetry_callModel_after env w1 tr1 k); rewrite ?Hcalls; auto. }
  destruct (uploadDirExists env w) eqn:Hex.
  - unfold writeFile. rewrite Hwrite. cbn [app].
    rewrite Hretry by reflexivity. cbn [files dirs calls].
    destruct (generateContent env (calls w + k)) as [result|e]; [|reflexivity].
    destruct (response_text result); reflexivity.
  - destruct Hmkdir as [Hmkdir|Hmkdir]; [discriminate|].
    unfold mkdir. rewrite Hmkdir. unfold writeFile. rewrite Hwrite. cbn [app].
    rewrite Hretry by reflexivity. cbn [files dirs calls].
    destruct (generateContent env (calls w + k)) as [result|e]; [|reflexivity].
    destruct (response_text result); reflexivity.
Qed.

(** The transcription stage of a request that carries a file ends in one
    of three ways: [mkdir] fails and nothing is changed; [writeFile]
    fails and no file is changed; or the upload is written and the model
    service is called up to four times. *)
Lemma POST_transcribe_file_cases env request w file :
  videoOf request = Some file ->
  (exists e,
     mkdir_error env = Some e
     /\ POST_transcribe env request w [] = (Abrupt e, w, [EvMkdir (uploadDir env)]))
  \/ (exists e,
        writeFile_error env = Some e
        /\ POST_transcribe env request w [] =
             (Abrupt e, prepared env w,
              prepareTrace env w ++ [EvWriteFile (scratchPath env file)]))
  \/ (exists k,
        (k <= 3)%nat
        /\ POST_transcribe env request w [] =
             (replyOf file (scratchPath env file) (generateContent env (calls w + k)),
              written env file (Datatypes.S k) w,
              prepareTrace env w ++ [EvWriteFile (scratchPath env file)]
                ++ backoffTrace 1000 0 k)).
Proof.
  intros Hvideo.
  destruct (uploadDirExists env w) eqn:Hex; [|destruct (mkdir_error env) as [e|] eqn:Hmkdir].
  2:{ left. exists e. split; [reflexivity|].
      destruct (videoOf_Some _ _ Hvideo) as (formData & Hform & Hget).
      unfold POST_transcribe. rewrite Hform. run_step. rewrite Hget. run_step.
      unfold existsSync. fold (uploadDir env). fold (uploadDirExists env w).
      rewrite Hex. unfold mkdir. rewrite Hmkdir. reflexivity. }
  all: right.
  all: destruct (writeFile_error env) as [e|] eqn:Hwrite;
    [left; exists e; split; [reflexivity|];
     destruct (videoOf_Some _ _ Hvideo) as (formData & Hform & Hget);
     unfold POST_transcribe; rewrite Hform; run_step; rewrite Hget; run_step;
     unfold existsSync; fold (uploadDir env); fold (uploadDirExists env w);
     fold (scratchPath env file); unfold prepared, prepareTrace;
     rewrite Hex; unfold mkdir, writeFile; rewrite ?Hmkdir, Hwrite; destruct w; reflexivity
    |right].
  all: destruct (awaitRetry_callModel_run env w []) as (k & Hk & Hbefore & Hstop & _);
    exists k; (split; [exact Hk|]);
    apply POST_transcribe_file_after; auto;
    destruct (decide (k < 3)%nat); [left; auto | right; lia].
Qed.

(** ** What a decoded match looks like *)

Lemma parseMembers_object fuel :
  forall s acc v r, parseMembers fuel s acc = POk v r -> exists props, v = JObj props.
Proof.
  induction fuel as [|f IH]; [discriminate|].
  intros s acc v r. cbn [parseMembers].
  destruct (skipWs s) as [|c s1]; [discriminate|].
  destruct (c =? 34)%N; [|discriminate].
  destruct (parseChars s1) as [k s2| |]; try discriminate.
  destruct (skipWs s2) as [|d s3]; [discriminate|].
  destruct (d =? 58)%N; [|discriminate].
  destruct (parseValue f s3) as [v0 s4| |]; try discriminate.
  destruct (skipWs s4) as [|e s5]; [discriminate|].
  destruct (e =? 44)%N; [apply IH|].
  destruct (e =? 125)%N; [|discriminate]. intros [= <- <-]. eauto.
Qed.

(** The elements of an array: the value that is parsed first is the
    first of the elements that are added. *)
Lemma parseElements_array fuel :
  forall s acc v r,
    parseElements fuel s acc = POk v r ->
    exists f v1 s1 more,
      fuel = Datatypes.S f /\ parseValue f s = POk v1 s1 /\ v = JArr (acc ++ v1 :: more).
Proof.
  induction fuel as [|f IH]; [discriminate|].
  intros s acc v r. cbn [parseElements].
  destruct (parseValue f s) as [v0 s1| |] eqn:Hv; try discriminate.
  destruct (skipWs s1) as [|e s2]; [discriminate|].
  destruct (e =? 44)%N.
  - intros H. apply IH in H as (f' & v1 & s3 & more & _ & _ & ->).
    exists f, v0, s1, (v1 :: more). rewrite <- app_assoc. auto.
  - destruct (e =? 93)%N; [|discriminate]. intros [= <- <-].
    exists f, v0, s1, []. auto.
Qed.

Lemma parseValue_brace fuel s v r :
  parseValue fuel (123%N :: s) = POk v r -> exists props, v = JObj props.
Proof.
  destruct fuel as [|f]; [discriminate|]. cbn [parseValue skipWs].
  replace (isJsonWs 123) with false by reflexivity.
  replace (123 =? 123)%N with true by reflexivity.
  destruct (skipWs s) as [|d s2]; [discriminate|].
  destruct (d =? 125)%N; [intros [= <- <-]; eauto|].
  apply parseMembers_object.
Qed.

(** White space of the pattern that is not white space of JSON is the
    form feed, the vertical tab or a code unit from 160 on. *)
Lemma whiteSpace_not_json d :
  isWhiteSpace d = true -> isJsonWs d = false -> (d = 11 \/ d = 12 \/ 160 <= d)%N.
Proof.
  unfold isWhiteSpace, isJsonWs.
  rewrite !orb_true_iff, !andb_true_iff, !orb_false_iff, !N.leb_le, !N.eqb_eq, !N.eqb_neq.
  lia.
Qed.

(** No JSON value starts with such a character. *)
Lemma parseValue_whiteSpace fuel d s v r :
  isWhiteSpace d = true -> isJsonWs d = false ->
  parseValue fuel (d :: s) = POk v r -> False.
Proof.
  intros Hws Hjs. pose proof (whiteSpace_not_json d Hws Hjs) as Hd.
  destruct fuel as [|f]; [discriminate|]. cbn [parseValue skipWs]. rewrite Hjs.
  destruct (N.eqb_spec d 123); [lia|]. destruct (N.eqb_spec d 91); [lia|].
  destruct (N.eqb_spec d 34); [lia|]. destruct (N.eqb_spec d 116); [lia|].
  destruct (N.eqb_spec d 102); [lia|]. destruct (N.eqb_spec d 110); [lia|].
  unfold parseNumber, parseInt.
  destruct (N.eqb_spec d 45); [lia|]. destruct (N.eqb_spec d 48); [lia|].
  unfold isDigit.
  destruct (N.leb_spec 48 d); destruct (N.leb_spec d 57); cbn [andb]; try discriminate.
  lia.
Qed.

(** After the white space of the pattern, JSON's white space skipped,
    comes the opening brace or a character that starts no value. *)
Lemma skipWs_whiteSpace ws rest :
  allWhiteSpace ws ->
  skipWs (ws ++ 123%N :: rest) = 123%N :: rest
  \/ exists d s, skipWs (ws ++ 123%N :: rest) = d :: s
                 /\ isWhiteSpace d = true /\ isJsonWs d = false.
Proof.
  intros Hws. induction Hws as [|c ws Hc Hws IH]; cbn [app skipWs].
  - left. reflexivity.
  - destruct (isJsonWs c) eqn:Hjs; [exact IH|]. right. eauto.
Qed.

(** When a text of the shape that the pattern selects is valid JSON, it
    is an array that is not empty and whose first element is an object. *)
Lemma JSON_parse_shape m v :
  arrayOfObjectsShape m ->
  JSON_parse m = Return v ->
  exists props items, v = JArr (JObj props :: items).
Proof.
  intros (ws1 & content & ws2 & Hws1 & _ & ->). chars. list_norm.
  replace (ch "[") with 91%N by reflexivity.
  replace (ch "{") with 123%N by reflexivity.
  unfold JSON_parse. rewrite Nat.add_1_r.
  match goal with |- context [parseValue _ ?t] => destruct (parseValue _ t) as [v0 r| |] eqn:Hp end;
    try discriminate.
  destruct (skipWs r); [|discriminate]. intros [= ->].
  cbn [parseValue skipWs] in Hp.
  replace (isJsonWs 91) with false in Hp by reflexivity.
  replace (91 =? 123)%N with false in Hp by reflexivity.
  replace (91 =? 91)%N with true in Hp by reflexivity.
  destruct (skipWs_whiteSpace ws1 (content ++ ch "}" :: ws2 ++ [ch "]"]) Hws1)
    as [Hs|(d & s & Hs & Hd & Hjs)]; rewrite Hs in Hp.
  - replace (123 =? 93)%N with false in Hp by reflexivity.
    apply parseElements_array in Hp as (f & v1 & s1 & more & _ & Hv1 & ->).
    apply parseValue_brace in Hv1 as [props ->]. cbn [app]. eauto.
  - exfalso. destruct (N.eqb_spec d 93).
    + apply whiteSpace_not_json in Hd; [lia | exact Hjs].
    + apply parseElements_array in Hp as (f & v1 & s1 & more & _ & Hv1 & _).
      exact (parseValue_whiteSpace _ _ _ _ _ Hd Hjs Hv1).
Qed.

(** What [String.prototype.match] selects has the shape of the pattern. *)
Lemma String_match_shape text m :
  String_match jsonArrayPattern text = Some m -> arrayOfObjectsShape m.
Proof.
  unfold String_match.
  destruct (regexExec jsonArrayPattern text) as [[i n]|] eqn:Hexec; [|discriminate].
  intros [= <-]. destruct (regexExec_Some _ _ _ _ Hexec) as (Hm & _ & _).
  destruct (pattern_sound _ _ Hm) as (m & post & -> & <- & Hshape).
  rewrite take_app_length. exact Hshape.
Qed.

(** X5: whatever the decoding step of the handler accepts is an array
    that is not empty and whose first element is an object: the reply
    held a match of the pattern, and the match was valid JSON.  So the
    call of [timeline.map] never fails for want of an array, and the
    handler never passes on an empty transcription. *)
Theorem extractTimeline_decodes_array_of_objects :
  forall (text : jsstring) (w w' : World) (tr tr' : list Event) (v : json),
    extractTimeline text w tr = (Normal v, w', tr') ->
    w' = w /\ tr' = tr
    /\ exists m props items,
         String_match jsonArrayPattern text = Some m
         /\ JSON_parse m = Return v
         /\ v = JArr (JObj props :: items).
Proof.
  intros text w w' tr tr' v. rewrite extractTimeline_pure.
  destruct (String_match jsonArrayPattern text) as [m|] eqn:Hm; [|discriminate].
  destruct (JSON_parse m) as [v0|e] eqn:Hp; [|discriminate].
  intros [= -> <- <-]. split; [reflexivity|]. split; [reflexivity|].
  destruct (JSON_parse_shape m v (String_match_shape _ _ Hm) Hp) as (props & items & ->).
  exists m, props, items. auto.
Qed.

(** X5 at the parser example. *)
Lemma extractTimeline_decodes_array_of_objects_witness :
  extractTimeline sampleReply emptyWorld [] = (Normal (JArr sampleEntries), emptyWorld, [])
  /\ (emptyWorld = emptyWorld /\ @nil Event = []
      /\ exists m props items,
           String_match jsonArrayPattern sampleReply = Some m
           /\ JSON_parse m = Return (JArr sampleEntries)
           /\ JArr sampleEntries = JArr (JObj props :: items)).
Proof.
  assert (H : extractTimeline sampleReply emptyWorld [] =
              (Normal (JArr sampleEntries), emptyWorld, [])) by (vm_compute; reflexivity).
  split; [exact H|].
  exact (extractTimeline_decodes_array_of_objects sampleReply emptyWorld emptyWorld [] []
           (JArr sampleEntries) H).
Defined.

(** ** The runs of the handler, with the world they leave *)

Lemma invocations_prepareTrace env w : invocations (prepareTrace env w) = 0%nat.
Proof. unfold prepareTrace. destruct (uploadDirExists env w); reflexivity. Qed.

Lemma waits_prepareTrace env w : waits (prepareTrace env w) = [].
Proof. unfold prepareTrace. destruct (uploadDirExists env w); reflexivity. Qed.

(** A throw of the transcription stage is answered by the outer catch. *)
Lemma POST_transcribe_failed env request w e w1 tr1 :
  POST_transcribe env request w [] = (Abrupt e, w1, tr1) ->
  POST env request w =
    (Resolved (NextResponse_json (failureBody e) 500), w1,
     tr1 ++ [EvConsole (LogProcessingFailure e)]).
Proof.
  intros H. unfold POST, POST_try. run_step. rewrite H. unfold POST_catch. run_step.
  reflexivity.
Qed.

(** The cleanup block when the scratch file is there. *)
Lemma cleanup_run env p w tr data :
  files w !! p = Some data ->
  tryCatch (unlink env p) (fun error => emit (EvConsole (LogUnlinkFailure error))) w tr =
  match unlink_error env with
  | None =>
      (Normal tt, {| files := delete p (files w); dirs := dirs w; calls := calls w |},
       tr ++ [EvUnlink p])
  | Some e => (Normal tt, w, tr ++ [EvUnlink p; EvConsole (LogUnlinkFailure e)])
  end.
Proof.
  intros H. unfold tryCatch, unlink, emit. rewrite H.
  destruct (unlink_error env); [rewrite <- app_assoc|]; reflexivity.
Qed.

(** The second stage when the scratch file is there: a reply that cannot
    be decoded is answered with 500 and the world is left as it is; a
    decoded reply is answered with 200 after the cleanup. *)
Lemma POST_respond_run env file p text w tr data :
  files w !! p = Some data ->
  (exists e,
     extractTimeline text w tr = (Abrupt e, w, tr)
     /\ POST_respond env file p text w tr =
          (Respond parseFailure, w, tr ++ [EvConsole (LogParseFailure e)]))
  \/ (exists props items,
        extractTimeline text w tr = (Normal (JArr (JObj props :: items)), w, tr)
        /\ POST_respond env file p text w tr =
             match unlink_error env with
             | None =>
                 (Normal (transcription file (JObj props :: items)),
                  {| files := delete p (files w); dirs := dirs w; calls := calls w |},
                  tr ++ [EvUnlink p])
             | Some e =>
                 (Normal (transcription file (JObj props :: items)), w,
                  tr ++ [EvUnlink p; EvConsole (LogUnlinkFailure e)])
             end).
Proof.
  intros Hfile. pose proof (extractTimeline_pure text w tr) as Hex.
  assert (Hfail : forall e, extractTimeline text w tr = (Abrupt e, w, tr) ->
            exists e,
              extractTimeline text w tr = (Abrupt e, w, tr)
              /\ POST_respond env file p text w tr =
                   (Respond parseFailure, w, tr ++ [EvConsole (LogParseFailure e)])).
  { intros e He. exists e. split; [exact He|]. apply POST_respond_parse_failure. exact He. }
  destruct (String_match jsonArrayPattern text) as [m|] eqn:Hm; [|left; eapply Hfail; exact Hex].
  destruct (JSON_parse m) as [v|e] eqn:Hp; [|left; eapply Hfail; exact Hex].
  destruct (JSON_parse_shape m v (String_match_shape _ _ Hm) Hp) as (props & items & ->).
  right. exists props, items. split; [exact Hex|].
  pose proof (cleanup_run env p w tr data Hfile) as Hclean.
  unfold POST_respond. run_step. rewrite Hex. cbn beta iota.
  unfold Array_map. run_step.
  unfold tryCatch, emit in Hclean. rewrite Hclean.
  destruct (unlink_error env); reflexivity.
Qed.

Lemma written_scratch env file n w :
  files (written env file n w) !! scratchPath env file = Some (file_bytes file).
Proof. cbn. apply lookup_insert_eq. Qed.

(** Every run of the handler on a request that carries a file.  It
    resolves; the model service is called as often as the trace says, and
    at most four times; and the run is of one of four kinds: a failure
    before the file is written, a failure after it is written, a success
    with the scratch file deleted, a success with a failed deletion. *)
Lemma POST_file_cases env request w file :
  videoOf request = Some file ->
  exists r w' tr,
    POST env request w = (Resolved r, w', tr)
    /\ fileRun env file w r w' tr.
Proof.
  intros Hvideo. unfold fileRun.
  assert (Hdirs : dirs (prepared env w) = dirs w
                  \/ dirs (prepared env w) = {[ uploadDir env ]} ∪ dirs w).
  { unfold prepared. cbn. destruct (uploadDirExists env w); auto. }
  destruct (POST_transcribe_file_cases env request w file Hvideo)
    as [(e & Hmk & Htr)|[(e & Hwr & Htr)|(k & Hk & Htr)]].
  - rewrite (POST_transcribe_failed _ _ _ _ _ _ Htr).
    eexists _, _, _. split; [reflexivity|]. split; [reflexivity|].
    split; [cbn; lia|]. split; [cbn; lia|]. split; [left; reflexivity|].
    left. split; [reflexivity|]. split; [reflexivity|]. split; [reflexivity|].
    exists e. split; [left; exact Hmk | reflexivity].
  - rewrite (POST_transcribe_failed _ _ _ _ _ _ Htr).
    eexists _, _, _. split; [reflexivity|].
    assert (Hinv : invocations ((prepareTrace env w ++ [EvWriteFile (scratchPath env file)])
                                  ++ [EvConsole (LogProcessingFailure e)]) = 0%nat).
    { rewrite !invocations_app, invocations_prepareTrace. reflexivity. }
    rewrite Hinv.
    split; [rewrite !waits_app, waits_prepareTrace; reflexivity|].
    split; [cbn; lia|]. split; [lia|]. split; [exact Hdirs|].
    left. split; [reflexivity|]. split; [reflexivity|]. split; [reflexivity|].
    exists e. split; [right; exact Hwr | reflexivity].
  - assert (Hinv : forall rest, invocations rest = 0%nat ->
              invocations ((prepareTrace env w ++ [EvWriteFile (scratchPath env file)]
                              ++ backoffTrace 1000 0 k) ++ rest) = Datatypes.S k).
    { intros rest Hrest.
      rewrite !invocations_app, invocations_prepareTrace, invocations_backoffTrace, Hrest.
      cbn. lia. }
    assert (Hwaits : forall rest, waits rest = [] ->
              waits ((prepareTrace env w ++ [EvWriteFile (scratchPath env file)]
                        ++ backoffTrace 1000 0 k) ++ rest)
              = map (fun i => (1000 * 2 ^ Z.of_nat i)%Z) (seq 0 (pred (Datatypes.S k)))).
    { intros rest Hrest.
      rewrite !waits_app, waits_prepareTrace, waits_backoffTrace, Hrest by lia.
      cbn [waits omap app pred]. rewrite app_nil_r. reflexivity. }
    assert (Hthrown : forall e,
              POST_transcribe env request w [] =
                (Abrupt e, written env file (Datatypes.S k) w,
                 prepareTrace env w ++ [EvWriteFile (scratchPath env file)]
                   ++ backoffTrace 1000 0 k) ->
              exists r w' tr,
                POST env request w = (Resolved r, w', tr) /\ fileRun env file w r w' tr).
    { intros e He. rewrite (POST_transcribe_failed _ _ _ _ _ _ He). unfold fileRun.
      eexists _, _, _. split; [reflexivity|]. rewrite Hinv by reflexivity.
      split; [apply Hwaits; reflexivity|].
      split; [reflexivity|]. split; [lia|]. split; [exact Hdirs|].
      right. left. split; [reflexivity|]. split; [lia|]. split; [reflexivity|].
      exists e. reflexivity. }
    unfold replyOf in Htr.
    destruct (generateContent env (calls w + k)) as [result|e]; [|exact (Hthrown e Htr)].
    destruct (response_text result) as [text|e]; [|exact (Hthrown e Htr)].
    rewrite (POST_transcribed _ _ _ _ _ _ _ _ Htr). unfold tryCatch.
    destruct (POST_respond_run env file (scratchPath env file) text
                (written env file (Datatypes.S k) w)
                (prepareTrace env w ++ [EvWriteFile (scratchPath env file)]
                   ++ backoffTrace 1000 0 k)
                (file_bytes file) (written_scratch env file _ w))
      as [(e & _ & Hresp)|(props & items & _ & Hresp)]; rewrite Hresp.
    + eexists _, _, _. split; [reflexivity|]. rewrite Hinv by reflexivity.
      split; [apply Hwaits; reflexivity|].
      split; [reflexivity|]. split; [lia|]. split; [exact Hdirs|].
      right. left. split; [reflexivity|]. split; [lia|]. split; [reflexivity|].
      exists (ErrorObject (Some (str "Failed to parse transcription response"))).
      reflexivity.
    + destruct (unlink_error env) as [e|] eqn:Hunlink.
      * eexists _, _, _. split; [reflexivity|]. rewrite Hinv by reflexivity.
      split; [apply Hwaits; reflexivity|].
        split; [reflexivity|]. split; [lia|]. split; [exact Hdirs|].
        right. right. right. split; [reflexivity|]. split; [lia|].
        split; [eauto|]. split; [|reflexivity].
        exists e. split; [reflexivity|].
        rewrite app_assoc. change [EvUnlink (scratchPath env file);
                                   EvConsole (LogUnlinkFailure e)]
          with ([EvUnlink (scratchPath env file)] ++ [EvConsole (LogUnlinkFailure e)]).
        rewrite app_assoc. apply last_snoc.
      * eexists _, _, _. split; [reflexivity|]. rewrite Hinv by reflexivity.
      split; [apply Hwaits; reflexivity|].
        split; [reflexivity|]. split; [lia|]. split; [exact Hdirs|].
        right. right. left. split; [reflexivity|]. split; [lia|].
        split; [eauto|]. split; [reflexivity|].
        split; [cbn; apply delete_insert_eq | apply last_snoc].
Qed.

(** The handler on a request without an upload: nothing is done but the
    answer. *)
Lemma POST_no_file env request w :
  videoOf request = None ->
  exists r log,
    POST env request w = (Resolved r, w, log)
    /\ ((r = badRequest /\ log = []
         /\ exists formData,
              request_formData request = Return formData
              /\ (FormData_get (str "video") formData = None
                  \/ FormData_get (str "video") formData = Some (TextEntry [])))
        \/ (exists e,
              r = NextResponse_json (failureBody e) 500
              /\ log = [EvConsole (LogProcessingFailure e)]
              /\ (request_formData request = Throw e
                  \/ exists formData c s,
                       request_formData request = Return formData
                       /\ FormData_get (str "video") formData = Some (TextEntry (c :: s))))).
Proof.
  unfold videoOf. intros Hvideo.
  destruct (request_formData request) as [formData|e] eqn:Hform.
  - destruct (FormData_get (str "video") formData) as [[f|[|c s]]|] eqn:Hget;
      [discriminate| | |].
    + exists badRequest, []. split; [|left; eauto 6].
      unfold POST, POST_try, POST_transcribe. rewrite Hform. run_step. rewrite Hget.
      reflexivity.
    + eexists _, _. split; [|right; eexists; split; [reflexivity|]; split; [reflexivity|];
                             right; eauto 6].
      unfold POST, POST_try, POST_transcribe. rewrite Hform. run_step. rewrite Hget.
      reflexivity.
    + exists badRequest, []. split; [|left; eauto 6].
      unfold POST, POST_try, POST_transcribe. rewrite Hform. run_step. rewrite Hget.
      reflexivity.
  - eexists _, _. split; [|right; eexists; split; [reflexivity|]; split; [reflexivity|];
                           left; reflexivity].
    unfold POST, POST_try, POST_transcribe. rewrite Hform. reflexivity.
Qed.


(** X7: one request costs at most four calls of the model service, and
    the handler waits 1 s, then 2 s, then 4 s between them, so at most
    7 s in all; a request without an upload costs no call. *)
Theorem POST_model_call_budget :
  forall (env : Env) (request : Request) (w : World),
    exists (r : Response) (w' : World) (tr : list Event),
      POST env request w = (Resolved r, w', tr)
      /\ calls w' = (calls w + invocations tr)%nat
      /\ (invocations tr <= 4)%nat
      /\ waits tr = map (fun i => (1000 * 2 ^ Z.of_nat i)%Z) (seq 0 (pred (invocations tr)))
      /\ (totalWait tr <= 7000)%Z
      /\ (videoOf request = None -> invocations tr = 0%nat).
Proof.
  intros env request w. destruct (videoOf request) as [file|] eqn:Hvideo.
  - destruct (POST_file_cases env request w file Hvideo)
      as (r & w' & tr & HPOST & Hwaits & Hcalls & Hle & _).
    exists r, w', tr. split; [exact HPOST|]. split; [exact Hcalls|]. split; [exact Hle|].
    split; [exact Hwaits|]. split; [|discriminate].
    unfold totalWait. rewrite Hwaits.
    destruct (invocations tr) as [|[|[|[|[|n]]]]]; cbn; lia.
  - destruct (POST_no_file env request w Hvideo)
      as (r & log & HPOST & [(_ & -> & _)|(e & _ & -> & _)]);
      exists r, w; eexists; (split; [exact HPOST|]); cbn;
      repeat split; try lia; reflexivity.
Qed.





(** X10: a request without an upload is answered without any effect: the
    world is left as it was found, nothing is written and the model
    service is not called.  The answer is 400 when the form has no
    [video] field or an empty text there, and 500 when the form cannot be
    decoded or the field holds a text that is not empty. *)
Theorem POST_without_upload :
  forall (env : Env) (request : Request) (w : World),
    videoOf request = None ->
    exists (r : Response) (log : list Event),
      POST env request w = (Resolved r, w, log)
      /\ ((r = badRequest /\ log = []
           /\ exists formData,
                request_formData request = Return formData
                /\ (FormData_get (str "video") formData = None
                    \/ FormData_get (str "video") formData = Some (TextEntry [])))
          \/ (exists e,
                r = NextResponse_json (failureBody e) 500
                /\ log = [EvConsole (LogProcessingFailure e)]
                /\ (request_formData request = Throw e
                    \/ exists formData c s,
                         request_formData request = Return formData
                         /\ FormData_get (str "video") formData
                            = Some (TextEntry (c :: s))))).
Proof. intros env request w. apply POST_no_file. Qed.

(** X10 at a form whose [video] field is a text. *)
Lemma POST_without_upload_witness :
  videoOf textFieldRequest = None
  /\ exists (r : Response) (log : list Event),
       POST (replying sampleReply) textFieldRequest emptyWorld = (Resolved r, emptyWorld, log)
       /\ ((r = badRequest /\ log = []
            /\ exists formData,
                 request_formData textFieldRequest = Return formData
                 /\ (FormData_get (str "video") formData = None
                     \/ FormData_get (str "video") formData = Some (TextEntry [])))
           \/ (exists e,
                 r = NextResponse_json (failureBody e) 500
                 /\ log = [EvConsole (LogProcessingFailure e)]
                 /\ (request_formData textFieldRequest = Throw e
                     \/ exists formData c s,
                          request_formData textFieldRequest = Return formData
                          /\ FormData_get (str "video") formData
                             = Some (TextEntry (c :: s))))).
Proof.
  assert (H : videoOf textFieldRequest = None) by (vm_compute; reflexivity).
  split; [exact H|].
  exact (POST_without_upload (replying sampleReply) textFieldRequest emptyWorld H).
Defined.






(** The entries of a 200 response. *)
Lemma transcription_entries file props items :
  exists entry entries,
    body (transcription file (JObj props :: items)) = JArr (entry :: entries)
    /\ Forall (fun e => exists props,
                   e = JObj props
                   /\ getProp (str "filename") props = Some (JStr (file_name file)))
         (entry :: entries).
Proof.
  eexists _, _. split; [reflexivity|].
  rewrite <- (map_cons (overlayFilename (file_name file))).
  apply Forall_fmap, Forall_forall. intros x _. cbn. unfold overlayFilename.
  eexists. split; [reflexivity | apply getProp_setProp_eq].
Qed.

(** X13: a 200 response never carries an empty transcription, and every
    entry it carries is an object whose [filename] is the name of the
    upload, whatever the elements of the decoded array were. *)
Theorem POST_success_body :
  forall (env : Env) (request : Request) (w w' : World) (r : Response) (tr : list Event),
    POST env request w = (Resolved r, w', tr) ->
    status r = 200%Z ->
    exists file entry entries,
      videoOf request = Some file
      /\ body r = JArr (entry :: entries)
      /\ Forall (fun e => exists props,
                     e = JObj props
                     /\ getProp (str "filename") props = Some (JStr (file_name file)))
           (entry :: entries).
Proof.
  intros env request w w' r tr HPOST Hst.
  destruct (videoOf request) as [file|] eqn:Hvideo.
  - destruct (POST_file_cases env request w file Hvideo)
      as (r0 & w0 & tr0 & HPOST0 & _ & _ & _ & _ & Hkind).
    rewrite HPOST in HPOST0. injection HPOST0 as <- <- <-.
    destruct Hkind as [(H5 & _)|[(H5 & _)|[(_ & _ & (props & items & Hr) & _)
                                          |(_ & _ & (props & items & Hr) & _)]]];
      try (rewrite Hst in H5; discriminate H5);
      subst r;
      destruct (transcription_entries file props items) as (entry & entries & Hb & Hall);
      exists file, entry, entries; auto.
  - destruct (POST_no_file env request w Hvideo)
      as (r0 & log & HPOST0 & [(-> & _)|(e & -> & _)]);
      rewrite HPOST in HPOST0; injection HPOST0 as -> _ _; discriminate Hst.
Qed.

(** X13 at a reply whose array holds a number between two objects. *)
Lemma POST_success_body_witness :
  POST (replying mixedReply) sampleRequest emptyWorld =
    (Resolved {| status := 200; body := JArr mixedTimeline |},
     {| files := ∅; dirs := {[ str "/srv/app/tmp" ]}; calls := 1 |},
     persistedTrace ++ [EvUnlink samplePath])
  /\ status {| status := 200; body := JArr mixedTimeline |} = 200%Z
  /\ exists file entry entries,
       videoOf sampleRequest = Some file
       /\ body {| status := 200; body := JArr mixedTimeline |}
          = JArr (entry :: entries)
       /\ Forall (fun e => exists props,
                      e = JObj props
                      /\ getProp (str "filename") props = Some (JStr (file_name file)))
            (entry :: entries).
Proof.
  assert (H : POST (replying mixedReply) sampleRequest emptyWorld =
    (Resolved {| status := 200; body := JArr mixedTimeline |},
     {| files := ∅; dirs := {[ str "/srv/app/tmp" ]}; calls := 1 |},
     persistedTrace ++ [EvUnlink samplePath])) by (vm_compute; reflexivity).
  split; [exact H|]. split; [reflexivity|].
  exact (POST_success_body (replying mixedReply) sampleRequest emptyWorld _ _ _ H eq_refl).
Defined.

(** ** Which failures are retried *)




(** ** The name of the download *)






(** ** The page *)

Lemma pageInvariant_start : pageInvariant Home.start.
Proof.
  unfold pageInvariant. cbn.
  repeat split; try discriminate; try congruence; apply List.Forall_nil.
Qed.

Lemma pageInvariant_step a p : pageInvariant p -> pageInvariant (Home.step a p).
Proof.
  intros (Hflight & Herr & Hfile & Htl & Hreq & Hdl).
  destruct p as [[file isLoading timeline error] inFlight requests downloads].
  cbn in Hflight, Herr, Hfile, Htl, Hreq, Hdl.
  destruct a as [[f|]|  |o|now]; cbn.
  - unfold pageInvariant. cbn. repeat split; auto; discriminate.
  - unfold pageInvariant. cbn. repeat split; auto.
  - destruct file as [f|]; [destruct isLoading|]; cbn.
    + unfold pageInvariant. cbn. repeat split; auto.
    + unfold pageInvariant. cbn. subst inFlight.
      repeat split; auto; try discriminate.
      apply Forall_app. split; [exact Hreq|]. repeat constructor. eauto.
    + unfold pageInvariant. cbn. repeat split; auto.
  - destruct inFlight as [|n].
    + unfold pageInvariant. cbn. repeat split; auto.
    + destruct isLoading; [|discriminate Hflight]. injection Hflight as ->.
      unfold pageInvariant.
      destruct o as [err| |[data|err]]; cbn; repeat split; auto; discriminate.
  - destruct timeline as [|entry entries].
    + unfold pageInvariant. cbn. repeat split; auto.
    + destruct file as [f|]; [|exfalso; apply Htl; [discriminate | reflexivity]].
      unfold pageInvariant. cbn. repeat split; auto.
      apply Forall_app. split; [exact Hdl|]. repeat constructor.
      exists f, now, entry, entries. reflexivity.
Qed.

Lemma pageInvariant_run actions :
  forall p, pageInvariant p -> pageInvariant (Home.run actions p).
Proof.
  unfold Home.run. induction actions as [|a actions IH]; intros p Hp; [exact Hp|].
  cbn [fold_left]. apply IH, pageInvariant_step, Hp.
Qed.

(** X16: whatever the user and the network do, at most one request is
    in flight; [isLoading] is set exactly while one is; and no error is
    shown during that time. *)
Theorem Home_single_flight :
  forall actions : list Home.Action,
    (Home.inFlight (Home.run actions Home.start) <= 1)%nat
    /\ (Home.isLoading (Home.state (Home.run actions Home.start)) = true
        <-> Home.inFlight (Home.run actions Home.start) = 1%nat)
    /\ (Home.isLoading (Home.state (Home.run actions Home.start)) = true
        -> Home.error (Home.state (Home.run actions Home.start)) = None).
Proof.
  intros actions.
  destruct (pageInvariant_run actions Home.start pageInvariant_start)
    as (Hflight & Herr & _).
  rewrite Hflight.
  destruct (Home.isLoading (Home.state (Home.run actions Home.start)));
    repeat split; auto; discriminate.
Qed.










